(** * TLS-DID resolver: chain verification, candidate selection, document assembly

    A shallow embedding of [src/utils.ts] and [src/resolver.ts].

    Conventions of the embedding.
    - A JavaScript string is a [string]; one character stands for one code
      unit.
    - A JavaScript object used as a dictionary is a [gmap string value]:
      its own properties, and its prototype under ["__proto__"] when that
      is not [Object.prototype]; an array is a [list].
    - [await] is sequential in every function embedded here, so a promise
      is the completion it settles to: [Return v] for a fulfilled promise
      and [Throw e] for a rejected one.  A plain [throw] inside an [async]
      function and inside a promise executor rejects the promise and is a
      [Throw] as well.
    - The libraries ([node-forge], [ocsp], [crypto], [jose], [ethers],
      [object-hash]) are collaborators: records of functions the embedded
      code is parameterised by. *)

From stdpp Require Import gmap strings list fin_maps pretty.
From Stdlib Require Import ZArith Ascii.

Set Warnings "-register-all,-clear-no-such-hyp".
Set Default Proof Using "Type".

Open Scope string_scope.
Open Scope list_scope.

(** ** Completions *)

Module Js.

(** What a [throw] or a [reject] carries: an [Error] object with its
    message, or one of the two primitive values the sources reject with. *)
Inductive thrown : Type :=
  | Error (message : string)
  | ThrownFalse
  | ThrownUndefined.

Inductive completion (A : Type) : Type :=
  | Return (a : A)
  | Throw (e : thrown).

Arguments Return {A} a.
Arguments Throw {A} e.

Definition bind {A B : Type} (c : completion A) (k : A → completion B) : completion B :=
  match c with
  | Return a => k a
  | Throw e => Throw e
  end.

Definition returns {A : Type} (c : completion A) : bool :=
  match c with
  | Return _ => true
  | Throw _ => false
  end.

(** [l.map(f)] for an [f] that may throw, and the loop
    [for (let x of l) { out.push(await f(x)); }]: the elements are visited
    in order and the first throw leaves the loop and the function. *)
Fixpoint traverse {A B : Type} (f : A → completion B) (l : list A) : completion (list B) :=
  match l with
  | [] => Return []
  | x :: l' =>
      bind (f x) (λ y, bind (traverse f l') (λ ys, Return (y :: ys)))
  end.

#[global] Instance thrown_eq_dec : EqDecision thrown.
Proof. solve_decision. Defined.

#[global] Instance completion_eq_dec {A : Type} `{EqDecision A} : EqDecision (completion A).
Proof. solve_decision. Defined.

(** *** Strings *)

(** [s.substring(n)]: the code units from index [n] on; an [n] past the
    end is clamped, so the result is then empty. *)
Fixpoint substring_from (n : nat) (s : string) : string :=
  match n, s with
  | O, _ => s
  | S _, EmptyString => EmptyString
  | S n', String _ s' => substring_from n' s'
  end.

(** [s.startsWith(prefix)], also the test a lookahead [(?=prefix)] makes
    on the text after a position. *)
Fixpoint startsWith (s prefix : string) {struct prefix} : bool :=
  match prefix, s with
  | EmptyString, _ => true
  | String _ _, EmptyString => false
  | String a prefix', String b s' => Ascii.eqb a b && startsWith s' prefix'
  end.

(** [s.includes(c)] for a single character [c]. *)
Fixpoint includes_char (s : string) (c : ascii) : bool :=
  match s with
  | EmptyString => false
  | String a s' => Ascii.eqb a c || includes_char s' c
  end.

(** [s.endsWith(suffix)]: some tail of [s] is [suffix]. *)
Fixpoint endsWith (s suffix : string) : bool :=
  String.eqb s suffix ||
  match s with
  | EmptyString => false
  | String _ s' => endsWith s' suffix
  end.

(** [s.slice(0, -2)]. *)
Definition slice_0_neg2 (s : string) : string :=
  String.substring 0 (String.length s - 2) s.

(** [s.split(sep)] for a one-character separator: never empty, the empty
    string splits into one empty piece. *)
Fixpoint split_on (sep : ascii) (s : string) : list string :=
  match s with
  | EmptyString => [EmptyString]
  | String c s' =>
      if Ascii.eqb c sep then EmptyString :: split_on sep s'
      else match split_on sep s' with
           | piece :: pieces => String c piece :: pieces
           | [] => [String c EmptyString]
           end
  end.

(** [Array.from(new Set(l))]: a [Set] iterates in insertion order, so each
    string stays at the place of its first occurrence. *)
Fixpoint array_from_set_aux (seen : list string) (l : list string) : list string :=
  match l with
  | [] => []
  | x :: l' =>
      if bool_decide (x ∈ seen) then array_from_set_aux seen l'
      else x :: array_from_set_aux (x :: seen) l'
  end.

Definition array_from_set (l : list string) : list string :=
  array_from_set_aux [] l.

(** Truthiness of a value that is a string or [undefined]. *)
Definition truthy_string (s : option string) : bool :=
  match s with
  | Some s => negb (String.eqb s "")
  | None => false
  end.

End Js.

Export Js.

(** [let x = await c; k], and any statement sequence in which [c] may
    throw. *)
Notation "'let!' x := c 'in' k" := (bind c (λ x, k))
  (at level 10, x name, c at level 100, k at level 200).

(** ** types.ts *)

Module Types.

Record Attribute : Type := {
  path : string;
  value : string;
}.

End Types.

(** ** utils.ts *)

Module Utils.

Definition LF : ascii := ascii_of_nat 10.

Definition BEGIN_CERTIFICATE : string := "-----BEGIN CERTIFICATE-----".

(** A match of [/\n(?=-----BEGIN CERTIFICATE-----)/] starts at the head of
    [String c rest]: a line feed with the begin marker right after it. *)
Definition boundary_at (c : ascii) (rest : string) : bool :=
  Ascii.eqb c LF && startsWith rest BEGIN_CERTIFICATE.

(** [chain.split(/\n(?=-----BEGIN CERTIFICATE-----)/g)].  Every match is
    one line feed long, so the pieces are the stretches between the
    matched line feeds, the line feeds themselves dropped.  The pair is
    the piece being read and the pieces after it. *)
Fixpoint split_pieces (s : string) : string * list string :=
  match s with
  | EmptyString => (EmptyString, [])
  | String c rest =>
      let '(piece, pieces) := split_pieces rest in
      if boundary_at c rest then (EmptyString, piece :: pieces)
      else (String c piece, pieces)
  end.

Definition chainToCerts (chain : string) : list string :=
  let '(piece, pieces) := split_pieces chain in piece :: pieces.

(** The way the repository's own test builds a chain from certificates:
    [cert + '\n' + intermediateCert]. *)
Definition concatenated (certs : list string) : string :=
  String.concat (String LF EmptyString) certs.

(** A line feed followed by the begin marker occurs somewhere in [s]. *)
Fixpoint has_boundary (s : string) : bool :=
  match s with
  | EmptyString => false
  | String c rest => boundary_at c rest || has_boundary rest
  end.


(** *** Documents *)

(** The values a DID document is built from. *)
Inductive value : Type :=
  | VString (s : string)
  | VObject (props : gmap string value)
  | VArray (elems : list value).

(** A document is a plain JavaScript object, so it has a prototype besides
    its own properties.  Own properties are the entries of the map under
    every key but ["__proto__"], which a plain object cannot hold as an
    own property through [obj[key] = x]: that entry stands for the
    prototype.  No entry there is [Object.prototype], the prototype of
    every [{}]; an entry [VObject p] is the plain object [p], which
    [addValueAtPath] itself can install (a path starting with
    [__proto__/]).  A string or an array in that entry represents no
    object the code can build from strings, and is read as no entry. *)

(** The properties of [Object.prototype]: eleven functions and the
    accessor [__proto__]. *)
Definition Object_prototype : list string :=
  [ "constructor"; "__defineGetter__"; "__defineSetter__"; "hasOwnProperty";
    "__lookupGetter__"; "__lookupSetter__"; "isPrototypeOf";
    "propertyIsEnumerable"; "toString"; "valueOf"; "toLocaleString";
    "__proto__" ].

(** What reading [currentObj[key]] gives. *)
Inductive property : Type :=
  | Undefined
  | Data (v : value)
  | Builtin.

(** The data property [key] of a prototype object or of the prototypes
    behind it, the nearest first. *)
Fixpoint inherited (prototype : value) (key : string) {struct prototype} : option value :=
  match prototype with
  | VObject props =>
      match props !! key with
      | Some v => Some v
      | None =>
          map_fold (λ k p found,
                      if bool_decide (k = "__proto__") then inherited p key else found)
                   None props
      end
  | _ => None
  end.

(** [currentObj[key]]: the own property; else the property of the nearest
    prototype that has one, [Object.prototype] being the last of them.
    The getter of [__proto__] gives the prototype, an object, which is
    neither a value of the document nor an array: it reads as [Builtin],
    like the functions of [Object.prototype]. *)
Definition get (currentObj : gmap string value) (key : string) : property :=
  if bool_decide (key = "__proto__") then Builtin
  else
    match currentObj !! key with
    | Some v => Data v
    | None =>
        match currentObj !! "__proto__" ≫= (λ p, inherited p key) with
        | Some v => Data v
        | None => if bool_decide (key ∈ Object_prototype) then Builtin else Undefined
        end
    end.

(** [if (currentObj[key])]: [undefined] and the empty string are falsy,
    every object, array and function is truthy. *)
Definition truthy (x : property) : bool :=
  match x with
  | Undefined => false
  | Data (VString s) => negb (String.eqb s "")
  | Data _ => true
  | Builtin => true
  end.

(** What [x.push(v)] throws when [x] is not an array: a string, an object
    of the document and a function have no [push]. *)
Definition push_TypeError : thrown :=
  Error "currentObj[key].push is not a function".

(** [currentObj[key].push(v)], giving the array after the push. *)
Definition push (x : property) (v : value) : completion (list value) :=
  match x with
  | Data (VArray elems) => Return (elems ++ [v])
  | _ => Throw push_TypeError
  end.

(** The array [push] has changed stays where [get] found it: in the
    nearest prototype that has the property. *)
Fixpoint store_inherited (prototype : value) (key : string) (elems : list value)
    {struct prototype} : value :=
  match prototype with
  | VObject props =>
      match props !! key with
      | Some _ => VObject (<[key := VArray elems]> props)
      | None =>
          VObject (map_imap (λ k p,
                               Some (if bool_decide (k = "__proto__")
                                     then store_inherited p key elems else p))
                            props)
      end
  | _ => prototype
  end.

(** The object after [currentObj[key].push(..)] has made the array under
    [key] into [elems]: an own array is changed in the object, an
    inherited one in its prototype. *)
Definition store (currentObj : gmap string value) (key : string) (elems : list value)
    : gmap string value :=
  match currentObj !! key with
  | Some _ => <[key := VArray elems]> currentObj
  | None =>
      match currentObj !! "__proto__" with
      | Some p => <["__proto__" := store_inherited p key elems]> currentObj
      | None => currentObj
      end
  end.

(** [currentObj[key] = x].  Every key but [__proto__] gets an own
    property.  For [__proto__] the assignment calls the setter of
    [Object.prototype]: an object becomes the prototype, a string is
    ignored.  (An array is never assigned there: the test before the
    assignment of an array reads the prototype, which is truthy.) *)
Definition assign (currentObj : gmap string value) (key : string) (x : value)
    : gmap string value :=
  if bool_decide (key = "__proto__") then
    match x with
    | VObject _ => <[key := x]> currentObj
    | _ => currentObj
    end
  else <[key := x]> currentObj.

(** The [forEach] of [addValueAtPath] over the segments still to visit.
    [currentObj] is the object the walk stands on; the result is that
    object after the walk.  Each object the walk descends into is the
    [{}] just created and is referenced from its parent alone, so the
    mutation in place is the update of the parent, at the place the walk
    descended through, with the child's final state.  The value [v] is a
    string ([@param {string} value], the [value] of an [Attribute]). *)
Fixpoint addValueAtSegments (pathArr : list string) (v : string)
    (currentObj : gmap string value) : completion (gmap string value) :=
  match pathArr with
  | [] => Return currentObj
  | [key] =>
      if endsWith key "[]" then
        let key := slice_0_neg2 key in
        if truthy (get currentObj key) then
          let! elems := push (get currentObj key) (VString v) in
          Return (store currentObj key elems)
        else Return (assign currentObj key (VArray [VString v]))
      else Return (assign currentObj key (VString v))
  | key :: rest =>
      if endsWith key "[]" then
        let key := slice_0_neg2 key in
        if truthy (get currentObj key) then
          let! elems := push (get currentObj key) (VObject ∅) in
          let! child := addValueAtSegments rest v ∅ in
          Return (store currentObj key (<[length elems - 1 := VObject child]> elems))
        else
          let! child := addValueAtSegments rest v ∅ in
          Return (assign currentObj key (VArray (<[0 := VObject child]> [VObject ∅])))
      else
        let! child := addValueAtSegments rest v ∅ in
        Return (assign currentObj key (VObject child))
  end.

Definition addValueAtPath (object : gmap string value) (path : string) (v : string)
    : completion (gmap string value) :=
  addValueAtSegments (split_on "/" path) v object.

(** *** Certificates and the libraries that read them *)

Record subject_attribute : Type := {
  attr_name : string;
  attr_value : string;
}.

Record certificate_subject : Type := {
  attributes : list subject_attribute;
}.

(** A parsed [pki.Certificate]: the subject the sources read, and the
    encoding the certificate was parsed from. *)
Record certificate : Type := {
  subject : option certificate_subject;
  encoding : string;
}.

(** [pki.CAStore], as the list of certificates [createCaStore] is given. *)
Definition CAStore : Type := list certificate.

Definition createCaStore (certs : list certificate) : CAStore := certs.

(** [node-forge]'s [pki].  A PEM argument is a string or [undefined]
    ([chain[0]] of an empty array).  [verifyCertificateChain] returns a
    boolean or throws. *)
Record Pki : Type := {
  certificateFromPem : option string → completion certificate;
  verifyCertificateChain : CAStore → list certificate → completion bool;
}.

(** How a function taking a node-style callback [function (err, res)]
    ends inside a promise executor: it calls back, or it throws.  (A
    callback that is never called would leave the promise pending; the
    embedding has no such case.) *)
Inductive callback (R : Type) : Type :=
  | Called (err : option thrown) (res : option R)
  | Raised (e : thrown).

Arguments Called {R} err res.
Arguments Raised {R} e.

Record ocsp_response : Type := {
  res_type : string;
}.

(** The [ocsp] package. *)
Record Ocsp : Type := {
  getOCSPURI : option string → callback string;
  check : option string → option string → callback ocsp_response;
}.

Record verified_chain : Type := VerifiedChain {
  chain : list string;
  valid : bool;
}.

Section Chains.

Context (P : Pki) (O : Ocsp).

Definition checkOCSP (cert issuerCert : option string) : completion bool :=
  match check O cert issuerCert with
  | Raised e => Throw e
  | Called err None => Throw (default ThrownUndefined err)
  | Called _ (Some res) => Return (String.eqb (res_type res) "good")
  end.

Definition checkForOCSP (cert : option string) : completion bool :=
  match getOCSPURI O cert with
  | Raised e => Throw e
  | Called _ uri =>
      if negb (truthy_string uri) then Throw ThrownFalse
      else Return true
  end.

(** [pkiObject.subject?.attributes[0]?.value]. *)
Definition first_subject_value (pkiObject : certificate) : option string :=
  s ← subject pkiObject; a ← head (attributes s); Some (attr_value a).

Definition verifyCertSubject (cert : option string) (subject : string) : completion bool :=
  let! pkiObject := certificateFromPem P cert in
  Return (bool_decide (first_subject_value pkiObject = Some subject)).

Definition verifyChain (chain : list string) (domain : string) (caStore : CAStore)
    : completion verified_chain :=
  let! certificateArray := traverse (λ pem, certificateFromPem P (Some pem)) chain in
  let! path := verifyCertificateChain P caStore certificateArray in
  let! valid := (if path then verifyCertSubject (chain !! 0) domain else Return false) in
  let! ocsp := checkForOCSP (chain !! 0) in
  let! valid := (if ocsp then
                   if valid then checkOCSP (chain !! 0) (chain !! 1) else Return false
                 else Return valid) in
  Return (VerifiedChain chain valid).

(** The [rootCertificates.map] of [processChains] from index [idx] on:
    the parsed certificate or [undefined] for each root, and
    [unsupportedRootCertIdxs] after the pushes. *)
Fixpoint parseRoots (idx : nat) (roots : list string) (unsupportedRootCertIdxs : list nat)
    : list (option certificate) * list nat :=
  match roots with
  | [] => ([], unsupportedRootCertIdxs)
  | cert :: roots' =>
      match certificateFromPem P (Some cert) with
      | Return c =>
          let '(pkis, idxs) := parseRoots (S idx) roots' unsupportedRootCertIdxs in
          (Some c :: pkis, idxs)
      | Throw _ =>
          let '(pkis, idxs) := parseRoots (S idx) roots' (unsupportedRootCertIdxs ++ [idx]) in
          (None :: pkis, idxs)
      end
  end.

(** The certificate a root parses to, when it parses. *)
Definition parsed (pem : string) : option certificate :=
  match certificateFromPem P (Some pem) with
  | Return c => Some c
  | Throw _ => None
  end.

(** The root at index [i] exists and does not parse. *)
Definition unparseable (roots : list string) (i : nat) : bool :=
  match roots !! i with
  | Some pem => negb (returns (certificateFromPem P (Some pem)))
  | None => false
  end.

(** The store [processChains] builds, with the indices it collects in
    [unsupportedRootCertIdxs] and writes to the console. *)
Definition buildCaStore (rootCertificates : list string) : CAStore * list nat :=
  let '(pkis, unsupportedRootCertIdxs) := parseRoots 0 rootCertificates [] in
  let definedPkis := omap id pkis in
  (createCaStore definedPkis, unsupportedRootCertIdxs).

Definition processChains (rootCertificates : list string) (chains : list string)
    (domain : string) : completion (list verified_chain) :=
  let filterdChains := array_from_set chains in
  let caStore := (buildCaStore rootCertificates).1 in
  traverse (λ chain, verifyChain (chainToCerts chain) domain caStore) filterdChains.

End Chains.

End Utils.

(** ** resolver.ts *)

Module Resolver.

Import Utils.

(** The [ethers] contracts the resolver reads: the registry at an address,
    the certificate registry, and the TLS-DID contract at an address.  A
    [BigNumber] result comes with its [toNumber()]. *)
Record Ledger : Type := {
  registry_getContracts : string → string → completion (list string);
  certRegistry_getChainCount : string → completion nat;
  certRegistry_getChain : string → nat → completion string;
  contract_signature : string → completion string;
  contract_domain : string → completion string;
  contract_getAttributeCount : string → completion nat;
  contract_getAttribute : string → nat → completion (string * string);
  contract_expiry : string → completion Z;
}.

(** [verify], [hashContract] and [x509ToJwk] of [utils.ts], which hand
    their arguments to [crypto], [object-hash] and [jose]. *)
Record Crypto : Type := {
  verify : option string → string → string → completion bool;
  hashContract : string → string → list Types.Attribute → Z → string;
  x509ToJwk : option string → completion value;
}.

(** The errors of [resolveContract] and [verifyContract], under the names
    the specification gives them. *)
Definition NotFound_contract : thrown := Error "No contract was found".
Definition NotFound_chains : thrown := Error "No tls certificates were found.".
Definition NoValidChain : thrown := Error "No valid tls chains was found.".
Definition AmbiguousChain : thrown := Error "Multiple valid tls chains were found.".
Definition AmbiguousCandidate (found : nat) : thrown :=
  Error (pretty found +:+ " contracts were found. Multiple were valid.").
Definition NoValidCandidate (found : nat) : thrown :=
  Error (pretty found +:+ " contracts were found. None was valid.").
Definition DomainMismatch : thrown := Error "DID identifier does not match contract domain".
Definition Expired : thrown := Error "Contract expired".

Section Resolution.

Context (L : Ledger) (C : Crypto) (P : Pki) (O : Ocsp).

(** [new Date()] in milliseconds, read as one instant for the whole
    resolution, and [tls.rootCertificates]. *)
Context (now : Z) (rootCertificates : list string).

Definition getChains (domain : string) : completion (list string) :=
  let! chainCount := certRegistry_getChainCount L domain in
  traverse (certRegistry_getChain L domain) (seq 0 chainCount).

Definition verifyContract (contract : string) (did : string) (cert : option string)
    : completion bool :=
  let! signature := contract_signature L contract in
  let didDomain := substring_from 8 did in
  let! contractDomain := contract_domain L contract in
  if negb (String.eqb didDomain contractDomain) then Throw DomainMismatch
  else
    let! attributeCount := contract_getAttributeCount L contract in
    let! attributes :=
      traverse (λ i, let! attribute := contract_getAttribute L contract i in
                     Return {| Types.path := attribute.1; Types.value := attribute.2 |})
               (seq 0 attributeCount) in
    let! expiry := contract_expiry L contract in
    if (expiry <? now)%Z then Throw Expired
    else
      let hash := hashContract C didDomain contract attributes expiry in
      verify C cert signature hash.

(** The loop of [resolveContract] over the addresses still to visit, with
    [validContract] as it stands; [found] is [addresses.length].  The
    [catch] leaves [valid] undefined, which is falsy. *)
Fixpoint selectContract (found : nat) (did : string) (cert : option string)
    (addresses : list string) (validContract : option string)
    : completion (option string) :=
  match addresses with
  | [] => Return validContract
  | address :: addresses' =>
      let valid :=
        match verifyContract address did cert with
        | Return valid => valid
        | Throw _ => false
        end in
      if valid && negb (bool_decide (is_Some validContract)) then
        selectContract found did cert addresses' (Some address)
      else if valid then Throw (AmbiguousCandidate found)
      else selectContract found did cert addresses' validContract
  end.

Definition resolveContract (did : string) (registryAddress : string)
    : completion (string * value) :=
  let domain := substring_from 8 did in
  let! addresses := registry_getContracts L registryAddress domain in
  if (length addresses =? 0)%nat then Throw NotFound_contract
  else
    let! chains := getChains domain in
    if (length chains =? 0)%nat then Throw NotFound_chains
    else
      let! verfiedChains := processChains P O rootCertificates chains domain in
      let validChains := List.filter valid verfiedChains in
      if (length validChains =? 0)%nat then Throw NoValidChain
      else if (1 <? length validChains)%nat then Throw AmbiguousChain
      else
        let cert := validChain ← validChains !! 0; chain validChain !! 0 in
        let! validContract := selectContract (length addresses) did cert addresses None in
        match validContract with
        | Some contract =>
            let! jwk := x509ToJwk C cert in
            Return (contract, jwk)
        | None => Throw (NoValidCandidate (length addresses))
        end.

(** The loop of [resolveTlsDid] over the attribute indices still to read. *)
Fixpoint addAttributes (contract : string) (idxs : list nat)
    (didDocument : gmap string value) : completion (gmap string value) :=
  match idxs with
  | [] => Return didDocument
  | i :: idxs' =>
      let! attribute := contract_getAttribute L contract i in
      let! didDocument := addValueAtPath didDocument attribute.1 attribute.2 in
      addAttributes contract idxs' didDocument
  end.

Definition resolveTlsDid (did : string) (registryAddress : string)
    : completion (gmap string value) :=
  let! resolved := resolveContract did registryAddress in
  let '(contract, jwk) := resolved in
  let didDocument : gmap string value :=
    <["id" := VString did]> {["@context" := VString "https://www.w3.org/ns/did/v1"]} in
  let didDocument :=
    <["verificationMethod" :=
        VArray [VObject (<["publicKeyJwk" := jwk]>
                        (<["controller" := VString did]>
                        (<["type" := VString "JsonWebKey2020"]>
                        {["id" := VString (did +:+ "#keys-1")]})))]]> didDocument in
  let! attributeCount := contract_getAttributeCount L contract in
  addAttributes contract (seq 0 attributeCount) didDocument.

End Resolution.

End Resolver.

(** ** A test world

    Certificates, a certificate authority with its responder, and a ledger
    with five contracts, to run the embedded code on. *)

Module Scenario.

Import Utils Resolver.

Definition pem (body : string) : string :=
  BEGIN_CERTIFICATE +:+ String LF (body +:+ String LF "-----END CERTIFICATE-----").

(** Leaves for [tls-did.de]: two with a responder that answers "good", one
    without a responder URI, one revoked.  A leaf for another domain and
    one with an empty common name.  The intermediate and two roots, the
    second of a kind the parser does not support. *)
Definition cert : string := pem "leaf: tls-did.de".
Definition certTwin : string := pem "leaf: tls-did.de, reissued".
Definition certNoOcsp : string := pem "leaf: tls-did.de, no responder URI".
Definition certRevoked : string := pem "leaf: tls-did.de, revoked".
Definition certOther : string := pem "leaf: example.org".
Definition certEmpty : string := pem "leaf: empty common name".
Definition intermediateCert : string := pem "intermediate: Test CA".
Definition rootCert : string := pem "root: Test CA".
Definition rootEC : string := pem "root: Test CA, elliptic curve".

Definition commonName (name : string) (encoding : string) : certificate :=
  {| subject := Some {| attributes := [{| attr_name := "commonName"; attr_value := name |}] |};
     encoding := encoding |}.

Definition invalid_pem : thrown := Error "Invalid PEM formatted message.".

Definition pki : Pki := {|
  certificateFromPem pem :=
    match pem with
    | Some s =>
        if bool_decide (s ∈ [cert; certTwin; certNoOcsp; certRevoked]) then
          Return (commonName "tls-did.de" s)
        else if bool_decide (s = certOther) then Return (commonName "example.org" s)
        else if bool_decide (s = certEmpty) then Return (commonName "" s)
        else if bool_decide (s ∈ [intermediateCert; rootCert]) then
          Return (commonName "Test CA" s)
        else Throw invalid_pem
    | None => Throw invalid_pem
    end;
  verifyCertificateChain caStore certs :=
    match last certs with
    | Some issuer =>
        if String.eqb (encoding issuer) intermediateCert
           && existsb (λ root, String.eqb (encoding root) rootCert) caStore
        then Return true
        else Throw (Error "Certificate is not trusted.")
    | None => Throw (Error "Certificate is not trusted.")
    end;
|}.

Definition ocsp : Ocsp := {|
  getOCSPURI cert :=
    if bool_decide (cert = Some certNoOcsp) then
      Called (Some (Error "AuthorityInfoAccess not found in extensions")) None
    else Called None (Some "http://ocsp.test-ca.example");
  check cert issuer :=
    if bool_decide (cert = Some certRevoked) then
      Called (Some (Error "OCSP Status: revoked")) (Some {| res_type := "revoked" |})
    else Called None (Some {| res_type := "good" |});
|}.

Definition rootCertificates : list string := [rootCert; rootEC].

Definition chainGood : string := concatenated [cert; intermediateCert].
Definition chainTwin : string := concatenated [certTwin; intermediateCert].
Definition chainNoOcsp : string := concatenated [certNoOcsp; intermediateCert].
Definition chainRevoked : string := concatenated [certRevoked; intermediateCert].
Definition chainOther : string := concatenated [certOther; intermediateCert].
Definition chainEmpty : string := concatenated [certEmpty; intermediateCert].
Definition chainGarbage : string := "not a certificate".

Definition now : Z := 2000.

Definition call_exception : thrown := Error "call revert exception".

(** The registries hold [addresses] and [chains] for [domain] and nothing
    for any other domain.  Contracts [0xA] and [0xB] are signed for
    [domain]; [0xC] is for another domain, [0xD] has expired, [0xE]
    carries a signature that does not verify; no other contract exists. *)
Definition ledger (domain : string) (addresses chains : list string) : Ledger := {|
  registry_getContracts _ d :=
    Return (if bool_decide (d = domain) then addresses else []);
  certRegistry_getChainCount d :=
    Return (if bool_decide (d = domain) then length chains else 0);
  certRegistry_getChain d i :=
    match (if bool_decide (d = domain) then chains else []) !! i with
    | Some blob => Return blob
    | None => Throw call_exception
    end;
  contract_signature contract :=
    if bool_decide (contract ∈ ["0xA"; "0xB"; "0xC"; "0xD"]) then
      Return ("signed:" +:+ domain +:+ "|" +:+ contract)
    else if bool_decide (contract = "0xE") then Return "forged"
    else Throw call_exception;
  contract_domain contract :=
    if bool_decide (contract = "0xC") then Return "example.org" else Return domain;
  contract_getAttributeCount contract := Return 1;
  contract_getAttribute contract i :=
    match i with
    | 0 => Return ("parent/child", "value")
    | _ => Throw call_exception
    end;
  contract_expiry contract :=
    if bool_decide (contract = "0xD") then Return 1000%Z else Return 5000%Z;
|}.

Definition jwk : value := VObject {["kty" := VString "RSA"]}.

Definition crypto : Crypto := {|
  verify cert signature data :=
    match cert with
    | Some _ => Return (String.eqb signature ("signed:" +:+ data))
    | None => Throw (Error "error:0909006C:PEM routines:get_name:no start line")
    end;
  hashContract domain address attributes expiry := domain +:+ "|" +:+ address;
  x509ToJwk cert := Return jwk;
|}.

Definition did : string := "did:tls:tls-did.de".

Definition REGISTRY : string := "0xA725A297b0F81c502df772DBE2D0AEb68788679d".

Definition caStore : CAStore := (buildCaStore pki rootCertificates).1.

(** A document with an array already under [parent]. *)
Definition withArray : gmap string value :=
  {["parent" := VArray [VObject {["childA" := VString "valueA"]}]]}.

End Scenario.

(** ** Notions the further properties are stated with *)

Module Notions.

Import Utils Resolver.

(** The first segment of a path, and the key [addValueAtPath] writes in the
    object it is given: the first segment without its [[]]. *)
Definition first_segment (path : string) : string :=
  default "" (head (split_on "/" path)).

Definition root_key (path : string) : string :=
  let key := first_segment path in
  if endsWith key "[]" then slice_0_neg2 key else key.

(** What a walk writes at its first segment when [rest] are the segments
    after it: the value at the last segment, else the object the rest of
    the walk makes of a fresh [{}]. *)
Definition written (rest : list string) (v : string) : completion value :=
  match rest with
  | [] => Return (VString v)
  | _ => let! child := addValueAtSegments rest v ∅ in Return (VObject child)
  end.

(** A segment [key[]] whose key names a property of [Object.prototype]. *)
Definition appends_to_builtin (segment : string) : bool :=
  endsWith segment "[]" && bool_decide (slice_0_neg2 segment ∈ Object_prototype).

(** A document whose prototype holds an array under [list], as the path
    [__proto__/list[]] makes it. *)
Definition withPrototype : gmap string value :=
  {["__proto__" := VObject {["list" := VArray [VString "a"]]}]}.

(** How many line feeds of [s] have the begin marker right after them. *)
Fixpoint count_boundaries (s : string) : nat :=
  match s with
  | EmptyString => 0
  | String c rest => (if boundary_at c rest then 1 else 0) + count_boundaries rest
  end.

(** The document [resolveTlsDid] starts from, before the attributes. *)
Definition baseDocument (did : string) (jwk : value) : gmap string value :=
  <["verificationMethod" :=
      VArray [VObject (<["publicKeyJwk" := jwk]>
                      (<["controller" := VString did]>
                      (<["type" := VString "JsonWebKey2020"]>
                      {["id" := VString (did +:+ "#keys-1")]})))]]>
  (<["id" := VString did]> {["@context" := VString "https://www.w3.org/ns/did/v1"]}).

(** The ledger of the test world with other attributes on its contracts. *)
Definition ledger_with (attributes : list (string * string))
    (domain : string) (addresses chains : list string) : Ledger :=
  let world := Scenario.ledger domain addresses chains in
  {| registry_getContracts := registry_getContracts world;
     certRegistry_getChainCount := certRegistry_getChainCount world;
     certRegistry_getChain := certRegistry_getChain world;
     contract_signature := contract_signature world;
     contract_domain := contract_domain world;
     contract_getAttributeCount _ := Return (length attributes);
     contract_getAttribute _ i :=
       match attributes !! i with
       | Some attribute => Return attribute
       | None => Throw Scenario.call_exception
       end;
     contract_expiry := contract_expiry world |}.





(** The responder of the test world out of reach: a responder URI is
    found as before, every status query fails. *)
Definition ocsp_down : Ocsp :=
  {| getOCSPURI := getOCSPURI Scenario.ocsp;
     check _ _ := Raised (Error "connect ECONNREFUSED") |}.

End Notions.

(** * Properties of utils.ts *)

Module UtilsFacts.

Import Utils Notions.

(** ** The chain splitter *)

Lemma app_String (a : ascii) (s t : string) :
  String a s +:+ t = String a (s +:+ t).
Proof. reflexivity. Qed.

Lemma startsWith_app (m s t : string) :
  startsWith s m = true → startsWith (s +:+ t) m = true.
Proof.
  revert s. induction m as [|a m IH]; intros s; [done|].
  destruct s as [|b s]; [done|]. rewrite app_String. simpl.
  intros [-> H]%andb_true_iff. by rewrite IH.
Qed.


Lemma marker_without_LF : includes_char BEGIN_CERTIFICATE LF = false.
Proof. reflexivity. Qed.


Lemma split_pieces_whole (s : string) :
  has_boundary s = false → split_pieces s = (s, []).
Proof.
  induction s as [|c s IH]; simpl; [done|].
  intros [Hc Hs]%orb_false_iff. by rewrite IH, Hc.
Qed.






(** ** The document assembler *)

Lemma app_assoc_string (s t u : string) : (s +:+ t) +:+ u = s +:+ (t +:+ u).
Proof.
  induction s as [|a s IH]; [done|]. rewrite !app_String. by rewrite IH.
Qed.

Lemma length_app_string (s t : string) :
  String.length (s +:+ t) = String.length s + String.length t.
Proof.
  induction s as [|a s IH]; [done|]. rewrite app_String. simpl. by rewrite IH.
Qed.

Lemma substring_0_app (s t : string) :
  String.substring 0 (String.length s) (s +:+ t) = s.
Proof.
  induction s as [|a s IH].
  - by destruct t.
  - rewrite app_String. simpl. by rewrite IH.
Qed.

Lemma includes_char_app (s t : string) (c : ascii) :
  includes_char (s +:+ t) c = includes_char s c || includes_char t c.
Proof.
  induction s as [|a s IH]; [done|]. rewrite app_String. simpl.
  by rewrite IH, orb_assoc.
Qed.

Lemma split_on_cons (sep : ascii) (s : string) :
  ∃ piece pieces, split_on sep s = piece :: pieces.
Proof.
  induction s as [|c s (piece & pieces & IH)]; simpl; [by eauto|].
  destruct (Ascii.eqb c sep); [by eauto|]. rewrite IH. by eauto.
Qed.

Lemma split_on_segment (sep : ascii) (seg rest : string) :
  includes_char seg sep = false →
  split_on sep (seg +:+ String sep rest) = seg :: split_on sep rest.
Proof.
  induction seg as [|a seg IH]; intros H.
  - change ("" +:+ String sep rest) with (String sep rest). simpl.
    by rewrite Ascii.eqb_refl.
  - simpl in H. apply orb_false_iff in H as [Ha H].
    rewrite app_String. simpl. by rewrite Ha, IH.
Qed.

Lemma endsWith_brackets (key : string) : endsWith (key +:+ "[]") "[]" = true.
Proof.
  induction key as [|a key IH]; [done|].
  rewrite app_String. simpl. rewrite IH. apply orb_true_r.
Qed.

Lemma slice_brackets (key : string) : slice_0_neg2 (key +:+ "[]") = key.
Proof.
  unfold slice_0_neg2. rewrite length_app_string.
  replace (String.length key + String.length "[]" - 2) with (String.length key)
    by (simpl; lia).
  apply substring_0_app.
Qed.

Lemma insert_last (elems : list value) (x y : value) :
  <[length (elems ++ [x]) - 1 := y]> (elems ++ [x]) = elems ++ [y].
Proof.
  rewrite length_app. simpl.
  rewrite insert_app_r_alt by lia.
  by replace (length elems + 1 - 1 - length elems) with 0 by lia.
Qed.

(** The prototype of a prototype is the entry under ["__proto__"]. *)
Lemma inherited_VObject (props : gmap string value) (key : string) :
  inherited (VObject props) key
  = match props !! key with
    | Some v => Some v
    | None => props !! "__proto__" ≫= (λ p, inherited p key)
    end.
Proof.
  cbn [inherited]. destruct (props !! key); [done|].
  apply (map_fold_weak_ind
           (λ found m, found = m !! "__proto__" ≫= (λ p, inherited p key))).
  - by rewrite lookup_empty.
  - intros k p m found Hk ->. case_bool_decide as Hproto.
    + subst k. by rewrite lookup_insert_eq.
    + by rewrite lookup_insert_ne.
Qed.

Lemma store_inherited_VObject (props : gmap string value) (key : string)
    (elems : list value) :
  store_inherited (VObject props) key elems
  = match props !! key with
    | Some _ => VObject (<[key := VArray elems]> props)
    | None => VObject (alter (λ p, store_inherited p key elems) "__proto__" props)
    end.
Proof.
  cbn [store_inherited]. destruct (props !! key); [done|]. f_equal.
  apply map_eq. intros k. rewrite map_lookup_imap.
  destruct (decide (k = "__proto__")) as [->|Hk].
  - rewrite lookup_alter_eq. by destruct (props !! "__proto__").
  - rewrite lookup_alter_ne by done. destruct (props !! k); [|done].
    simpl. by rewrite bool_decide_eq_false_2.
Qed.

(** Reading a property of an object whose prototype is
    [Object.prototype]. *)
Lemma get_own (object : gmap string value) (key : string) (x : value) :
  key ≠ "__proto__" → object !! key = Some x → get object key = Data x.
Proof. intros Hkey Hx. unfold get. by rewrite bool_decide_eq_false_2, Hx. Qed.

Lemma get_default (object : gmap string value) (key : string) :
  object !! key = None → object !! "__proto__" = None →
  get object key = if bool_decide (key ∈ Object_prototype) then Builtin else Undefined.
Proof.
  intros Hkey Hproto. unfold get. case_bool_decide as H.
  - subst key. rewrite bool_decide_eq_true_2; [done|]. set_solver.
  - by rewrite Hkey, Hproto.
Qed.

Lemma assign_insert (object : gmap string value) (key : string) (x : value) :
  key ≠ "__proto__" → assign object key x = <[key := x]> object.
Proof. intros Hkey. unfold assign. by rewrite bool_decide_eq_false_2. Qed.

Lemma store_own (object : gmap string value) (key : string) (x : value)
    (elems : list value) :
  object !! key = Some x → store object key elems = <[key := VArray elems]> object.
Proof. intros Hx. unfold store. by rewrite Hx. Qed.

Lemma addValueAtSegments_more (key key' : string) (rest : list string) (v : string)
    (currentObj : gmap string value) :
  addValueAtSegments (key :: key' :: rest) v currentObj
  = if endsWith key "[]" then
      if truthy (get currentObj (slice_0_neg2 key)) then
        let! elems := push (get currentObj (slice_0_neg2 key)) (VObject ∅) in
        let! child := addValueAtSegments (key' :: rest) v ∅ in
        Return (store currentObj (slice_0_neg2 key)
                  (<[length elems - 1 := VObject child]> elems))
      else
        let! child := addValueAtSegments (key' :: rest) v ∅ in
        Return (assign currentObj (slice_0_neg2 key)
                  (VArray (<[0 := VObject child]> [VObject ∅])))
    else
      let! child := addValueAtSegments (key' :: rest) v ∅ in
      Return (assign currentObj key (VObject child)).
Proof. reflexivity. Qed.

(** What a walk does at its first segment, whatever the object it starts
    on: the test and the [push] or the assignment, with what the segments
    after it make of the fresh [{}].  The [push] comes before the descent,
    so a missing [push] throws whatever the later segments are. *)
Lemma addValueAtSegments_shape (seg : string) (rest : list string) (v : string)
    (object : gmap string value) :
  addValueAtSegments (seg :: rest) v object
  = if endsWith seg "[]" then
      if truthy (get object (slice_0_neg2 seg)) then
        match get object (slice_0_neg2 seg) with
        | Data (VArray elems) =>
            let! w := written rest v in
            Return (store object (slice_0_neg2 seg) (elems ++ [w]))
        | _ => Throw push_TypeError
        end
      else
        let! w := written rest v in
        Return (assign object (slice_0_neg2 seg) (VArray [w]))
    else
      let! w := written rest v in
      Return (assign object seg w).
Proof.
  destruct rest as [|seg' rest].
  - cbn [addValueAtSegments written bind].
    destruct (endsWith seg "[]"); [|done].
    destruct (truthy _); [|done].
    by destruct (get object (slice_0_neg2 seg)) as [|[| |elems]|].
  - rewrite addValueAtSegments_more. unfold written.
    destruct (endsWith seg "[]").
    + destruct (truthy _).
      * destruct (get object (slice_0_neg2 seg)) as [|[| |elems]|]; cbn [push bind];
          try done.
        destruct (addValueAtSegments (seg' :: rest) v ∅); cbn [bind]; [|done].
        by rewrite insert_last.
      * by destruct (addValueAtSegments (seg' :: rest) v ∅).
    + by destruct (addValueAtSegments (seg' :: rest) v ∅).
Qed.

(** A walk that starts on a fresh [{}] throws exactly when one of its
    segments is [key[]] with the key of a property of [Object.prototype]:
    that property is truthy and has no [push]. *)
Lemma addValueAtSegments_fresh (pathArr : list string) (v : string) :
  if existsb appends_to_builtin pathArr
  then addValueAtSegments pathArr v ∅ = Throw push_TypeError
  else ∃ child, addValueAtSegments pathArr v ∅ = Return child.
Proof.
  induction pathArr as [|seg rest IH]; [by eexists|].
  rewrite addValueAtSegments_shape. cbn [existsb]. unfold appends_to_builtin at 1.
  assert (if existsb appends_to_builtin rest
          then rest ≠ [] ∧ written rest v = Throw push_TypeError
          else ∃ w, written rest v = Return w) as Hrest.
  { destruct rest as [|seg' rest]; [by eexists|].
    cbn [written]. destruct (existsb _ (seg' :: rest)).
    - by rewrite IH.
    - destruct IH as [child ->]. by eexists. }
  destruct (endsWith seg "[]"); cbn [andb orb].
  - rewrite get_default by apply lookup_empty.
    case_bool_decide; cbn [truthy orb]; [done|].
    destruct (existsb _ rest).
    + destruct Hrest as [_ ->]. done.
    + destruct Hrest as [w ->]. by eexists.
  - destruct (existsb _ rest).
    + destruct Hrest as [_ ->]. done.
    + destruct Hrest as [w ->]. by eexists.
Qed.

Lemma split_on_brackets (key rest : string) :
  includes_char key "/" = false →
  split_on "/" (key +:+ "[]/" +:+ rest) = (key +:+ "[]") :: split_on "/" rest.
Proof.
  intros Hkey. change ("[]/" +:+ rest) with ("[]" +:+ String "/" rest).
  rewrite <- app_assoc_string. apply split_on_segment.
  by rewrite includes_char_app, Hkey.
Qed.

Lemma split_on_plain (key rest : string) :
  includes_char key "/" = false →
  split_on "/" (key +:+ "/" +:+ rest) = key :: split_on "/" rest.
Proof. apply split_on_segment. Qed.

(** What the segments after the first write, when there are some. *)
Lemma written_rest (rest : string) (v : string) :
  written (split_on "/" rest) v
  = let! child := addValueAtPath ∅ rest v in Return (VObject child).
Proof.
  unfold addValueAtPath. by destruct (split_on_cons "/" rest) as (seg & segs & ->).
Qed.

(** C8, as the code has it.  At a segment [key[]] that is not the last
    one the walk always appends a fresh element and descends into it: the
    array the object has under [key] keeps all its elements unchanged,
    its former last one included, and an array of one element is made
    when the object has no property [key], not an inherited one either
    (or has the empty string there).  At a segment [key] that is not the
    last one a fresh object is stored under [key], replacing what was
    there, and the walk descends into it.  The element or object descended
    into ends as the walk of the remaining path on [{}]; when that walk
    throws, so does the whole one.  [__proto__] is no key of a property:
    it names the prototype. *)
Theorem addValueAtPath_descent (object : gmap string value) (key rest : string)
    (v : string) :
  includes_char key "/" = false →
  key ≠ "__proto__" →
  (∀ elems, object !! key = Some (VArray elems) →
     addValueAtPath object (key +:+ "[]/" +:+ rest) v
     = let! child := addValueAtPath ∅ rest v in
       Return (<[key := VArray (elems ++ [VObject child])]> object))
  ∧ (object !! key = Some (VString "")
     ∨ (object !! key = None ∧ object !! "__proto__" = None ∧ key ∉ Object_prototype) →
     addValueAtPath object (key +:+ "[]/" +:+ rest) v
     = let! child := addValueAtPath ∅ rest v in
       Return (<[key := VArray [VObject child]]> object))
  ∧ (endsWith key "[]" = false →
     addValueAtPath object (key +:+ "/" +:+ rest) v
     = let! child := addValueAtPath ∅ rest v in
       Return (<[key := VObject child]> object)).
Proof.
  intros Hkey Hproto. split; [|split].
  - intros elems Hlookup. unfold addValueAtPath at 1.
    rewrite split_on_brackets, addValueAtSegments_shape by done.
    rewrite endsWith_brackets, slice_brackets, (get_own _ _ _ Hproto Hlookup).
    cbn [truthy]. rewrite written_rest.
    destruct (addValueAtPath ∅ rest v); cbn [bind]; [|done].
    by rewrite (store_own _ _ _ _ Hlookup).
  - intros Hnothing. unfold addValueAtPath at 1.
    rewrite split_on_brackets, addValueAtSegments_shape by done.
    rewrite endsWith_brackets, slice_brackets.
    assert (truthy (get object key) = false) as ->.
    { destruct Hnothing as [Hempty|(Hnone & Hdefault & Hbuiltin)].
      - by rewrite (get_own _ _ _ Hproto Hempty).
      - by rewrite get_default, bool_decide_eq_false_2. }
    rewrite written_rest.
    destruct (addValueAtPath ∅ rest v); cbn [bind]; [|done].
    by rewrite assign_insert.
  - intros Hplain. unfold addValueAtPath at 1.
    rewrite split_on_plain, addValueAtSegments_shape, Hplain by done.
    rewrite written_rest.
    destruct (addValueAtPath ∅ rest v); cbn [bind]; [|done].
    by rewrite assign_insert.
Qed.

(** ** Loops that may throw *)

Lemma traverse_Return {A B : Type} (f : A → completion B) (l : list A) (ys : list B) :
  traverse f l = Return ys ↔ Forall2 (λ x y, f x = Return y) l ys.
Proof.
  revert ys. induction l as [|x l IH]; intros ys; simpl.
  - split; [intros [= <-]; constructor | by inversion 1].
  - split.
    + destruct (f x) as [y|] eqn:Ex; [|done]. simpl.
      destruct (traverse f l) as [ys'|] eqn:El; [|done]. simpl.
      intros [= <-]. constructor; [done|]. by apply IH.
    + inversion 1 as [|?? y ys' Hy Hys]; subst.
      rewrite Hy. simpl. apply IH in Hys as ->. done.
Qed.

Lemma traverse_Throw {A B : Type} (f : A → completion B) (l : list A) (e : thrown) :
  traverse f l = Throw e ↔
  ∃ pre x post, l = pre ++ x :: post
                ∧ Forall (λ x', returns (f x') = true) pre ∧ f x = Throw e.
Proof.
  induction l as [|x l IH]; simpl.
  - split; [done|]. intros (pre & x & post & E & _). by destruct pre.
  - destruct (f x) as [y|e'] eqn:Ex; simpl.
    + assert (traverse f l = Throw e ↔
              bind (traverse f l) (λ ys, Return (y :: ys)) = Throw e) as <-.
      { destruct (traverse f l); simpl; [done|]. split; congruence. }
      rewrite IH. split.
      * intros (pre & x' & post & -> & Hpre & Hx').
        exists (x :: pre), x', post. split; [done|]. split; [|done].
        constructor; [by rewrite Ex | done].
      * intros (pre & x' & post & E & Hpre & Hx').
        destruct pre as [|x'' pre]; simplify_eq/=; [congruence|].
        exists pre, x', post. by inversion Hpre.
    + split.
      * intros [= ->]. by exists [], x, l.
      * intros (pre & x' & post & E & Hpre & Hx').
        destruct pre as [|x'' pre]; simplify_eq/=; [congruence|].
        inversion Hpre as [|?? Hx'' ?]; subst. by rewrite Ex in Hx''.
Qed.

Lemma traverse_ext {A B : Type} (f g : A → completion B) (l : list A) :
  (∀ x, x ∈ l → f x = g x) → traverse f l = traverse g l.
Proof.
  induction l as [|x l IH]; intros H; [done|]. simpl.
  rewrite (H x) by set_solver. rewrite IH; [done|].
  intros ??. apply H. set_solver.
Qed.

(** ** [Array.from(new Set(chains))] *)

Lemma array_from_set_aux_elem (seen l : list string) (x : string) :
  x ∈ array_from_set_aux seen l ↔ x ∈ l ∧ x ∉ seen.
Proof.
  revert seen. induction l as [|y l IH]; intros seen; simpl; [set_solver|].
  case_bool_decide as Hy.
  - rewrite IH. set_solver.
  - rewrite elem_of_cons, IH. destruct (decide (x = y)); set_solver.
Qed.

Lemma array_from_set_aux_NoDup (seen l : list string) :
  NoDup (array_from_set_aux seen l).
Proof.
  revert seen. induction l as [|y l IH]; intros seen; simpl; [constructor|].
  case_bool_decide; [done|]. constructor; [|done].
  rewrite array_from_set_aux_elem. set_solver.
Qed.

Lemma array_from_set_aux_sublist (seen l : list string) :
  sublist (array_from_set_aux seen l) l.
Proof.
  revert seen. induction l as [|y l IH]; intros seen; simpl; [done|].
  case_bool_decide; [by apply sublist_cons | by apply sublist_skip].
Qed.

(** ** The trust anchor store *)

Section ChainFacts.

Context (P : Pki) (O : Ocsp).

Lemma parseRoots_spec (idx : nat) (roots : list string) (acc : list nat) :
  parseRoots P idx roots acc
  = (parsed P <$> roots,
     acc ++ List.filter (λ i, unparseable P roots (i - idx)) (seq idx (length roots))).
Proof.
  revert idx acc. induction roots as [|pem roots IH]; intros idx acc; simpl.
  - by rewrite app_nil_r.
  - assert (List.filter (λ i, unparseable P (pem :: roots) (i - idx)) (seq (S idx) (length roots))
            = List.filter (λ i, unparseable P roots (i - S idx)) (seq (S idx) (length roots))) as Htail.
    { apply List.filter_ext_in. intros i [Hi _]%in_seq.
      replace (i - idx) with (S (i - S idx)) by lia. done. }
    rewrite Nat.sub_diag. unfold unparseable at 1, parsed at 1. simpl.
    destruct (certificateFromPem P (Some pem)) as [c|e]; rewrite IH; simpl.
    + by rewrite Htail.
    + by rewrite Htail, <- app_assoc.
Qed.

Lemma omap_id_fmap {A B : Type} (f : A → option B) (l : list A) :
  omap id (f <$> l) = omap f l.
Proof.
  induction l as [|x l IH]; csimpl; [done|].
  destruct (f x); by rewrite IH.
Qed.

Lemma buildCaStore_spec (roots : list string) :
  buildCaStore P roots
  = (omap (parsed P) roots,
     List.filter (unparseable P roots) (seq 0 (length roots))).
Proof.
  unfold buildCaStore. rewrite parseRoots_spec. simpl.
  rewrite omap_id_fmap. unfold createCaStore. f_equal.
  apply List.filter_ext. intros i. by rewrite Nat.sub_0_r.
Qed.

(** C5.  Building the store is total: whatever the roots, it ends with a
    store and a list of skipped indices.  The skipped indices are, in
    ascending order, exactly the indices of the roots that do not parse;
    the store holds, in the order of the roots, exactly the certificates
    the other roots parse to. *)
Theorem buildCaStore_skips_unparseable (roots : list string) :
  (buildCaStore P roots).1 = omap (parsed P) roots
  ∧ (buildCaStore P roots).2 = List.filter (unparseable P roots) (seq 0 (length roots))
  ∧ (∀ i, i ∈ (buildCaStore P roots).2 ↔
          ∃ pem e, roots !! i = Some pem ∧ certificateFromPem P (Some pem) = Throw e)
  ∧ (∀ c, c ∈ (buildCaStore P roots).1 ↔
          ∃ pem, pem ∈ roots ∧ certificateFromPem P (Some pem) = Return c)
  ∧ length (buildCaStore P roots).1 + length (buildCaStore P roots).2 = length roots.
Proof.
  rewrite buildCaStore_spec. simpl. split; [done|]. split; [done|].
  split; [|split].
  - intros i. rewrite list_elem_of_In, List.filter_In, in_seq.
    unfold unparseable. split.
    + intros [_ H]. destruct (roots !! i) as [pem|]; [|done].
      destruct (certificateFromPem P (Some pem)) as [|e] eqn:E; [done|].
      by exists pem, e.
    + intros (pem & e & Hi & E). split.
      * apply lookup_lt_Some in Hi. lia.
      * by rewrite Hi, E.
  - intros c. rewrite list_elem_of_omap. unfold parsed. split.
    + intros (pem & Hpem & H). exists pem. split; [done|].
      by destruct (certificateFromPem P (Some pem)); simplify_eq.
    + intros (pem & Hpem & E). exists pem. by rewrite E.
  - induction roots as [|pem roots IH] using rev_ind; [done|].
    rewrite omap_app, !length_app, seq_app, List.filter_app, length_app. simpl.
    assert (List.filter (unparseable P (roots ++ [pem])) (seq 0 (length roots))
            = List.filter (unparseable P roots) (seq 0 (length roots))) as ->.
    { apply List.filter_ext_in. intros i [_ Hi]%in_seq. unfold unparseable.
      by rewrite lookup_app_l by lia. }
    unfold unparseable at 2. rewrite lookup_app_r by lia.
    rewrite Nat.sub_diag. simpl. unfold parsed at 2.
    destruct (certificateFromPem P (Some pem)); simpl; lia.
Qed.

(** ** Chain validation *)

Lemma verifyChain_chain (chain : list string) (domain : string) (caStore : CAStore)
    (outcome : verified_chain) :
  verifyChain P O chain domain caStore = Return outcome →
  Utils.chain outcome = chain.
Proof.
  unfold verifyChain. intros H.
  repeat match type of H with
         | bind ?c _ = _ => destruct c; simpl in H; [|done]
         end.
  by simplify_eq.
Qed.

Lemma checkForOCSP_Return (cert : option string) (b : bool) :
  checkForOCSP O cert = Return b →
  b = true ∧ ∃ err uri, getOCSPURI O cert = Called err uri ∧ truthy_string uri = true.
Proof.
  unfold checkForOCSP. destruct (getOCSPURI O cert) as [err uri|]; [|done].
  destruct (truthy_string uri) eqn:E; simpl; [|done].
  intros [= <-]. split; [done|]. by exists err, uri.
Qed.

Lemma checkOCSP_true (cert issuerCert : option string) :
  checkOCSP O cert issuerCert = Return true →
  ∃ err res, check O cert issuerCert = Called err (Some res) ∧ res_type res = "good".
Proof.
  unfold checkOCSP. destruct (check O cert issuerCert) as [err [res|]|]; [|done..].
  intros [= E]. exists err, res. split; [done|]. by apply String.eqb_eq.
Qed.

(** A valid outcome has gone through every check of [verifyChain]: the
    path validation and the subject check returned [true], the leaf has a
    responder URI, and the responder answered "good". *)
Lemma verifyChain_valid (chain : list string) (domain : string) (caStore : CAStore)
    (outcome : verified_chain) :
  verifyChain P O chain domain caStore = Return outcome →
  valid outcome = true →
  (∃ certs, traverse (λ pem, certificateFromPem P (Some pem)) chain = Return certs
            ∧ verifyCertificateChain P caStore certs = Return true)
  ∧ verifyCertSubject P (chain !! 0) domain = Return true
  ∧ (∃ err uri, getOCSPURI O (chain !! 0) = Called err uri ∧ truthy_string uri = true)
  ∧ (∃ err res, check O (chain !! 0) (chain !! 1) = Called err (Some res)
                ∧ res_type res = "good").
Proof.
  unfold verifyChain. intros H Hvalid.
  destruct (traverse _ chain) as [certs|] eqn:Hcerts; simpl in H; [|done].
  destruct (verifyCertificateChain P caStore certs) as [path|] eqn:Hpath;
    simpl in H; [|done].
  destruct (if path then _ else _) as [subject_ok|] eqn:Hsubject; simpl in H; [|done].
  destruct (checkForOCSP O (chain !! 0)) as [ocsp|] eqn:Hocsp; simpl in H; [|done].
  apply checkForOCSP_Return in Hocsp as [-> Huri].
  destruct subject_ok.
  - destruct (checkOCSP O (chain !! 0) (chain !! 1)) as [good|] eqn:Hgood;
      simpl in H; [|done].
    simplify_eq/=. destruct path; [|done].
    split; [by exists certs|]. split; [done|]. split; [done|].
    by apply checkOCSP_true.
  - simpl in H. by simplify_eq/=.
Qed.

(** The leaf has no responder URI: [checkForOCSP] rejects, and the
    rejection leaves [verifyChain]. *)
Lemma verifyChain_no_endpoint (chain : list string) (domain : string)
    (caStore : CAStore) (err : option thrown) (uri : option string) :
  getOCSPURI O (chain !! 0) = Called err uri →
  truthy_string uri = false →
  returns (verifyChain P O chain domain caStore) = false
  ∧ ∀ certs path subject_ok,
      traverse (λ pem, certificateFromPem P (Some pem)) chain = Return certs →
      verifyCertificateChain P caStore certs = Return path →
      (if path then verifyCertSubject P (chain !! 0) domain else Return false)
        = Return subject_ok →
      verifyChain P O chain domain caStore = Throw ThrownFalse.
Proof.
  intros Huri Hfalsy.
  assert (checkForOCSP O (chain !! 0) = Throw ThrownFalse) as Hocsp.
  { unfold checkForOCSP. by rewrite Huri, Hfalsy. }
  unfold verifyChain. split.
  - destruct (traverse _ chain) as [certs|]; simpl; [|done].
    destruct (verifyCertificateChain P caStore certs) as [path|]; simpl; [|done].
    destruct (if path then _ else _); simpl; [|done].
    by rewrite Hocsp.
  - intros certs path subject_ok -> Hpath Hsubject. simpl.
    rewrite Hpath. simpl. rewrite Hsubject. simpl. by rewrite Hocsp.
Qed.



(** ** All the chains of a domain *)

(** C4, as the code has it.  [processChains] works on the chains without
    their repetitions, each at the place of its first occurrence.  It
    returns exactly when the verification of every such chain returns,
    and then with one outcome per chain, in that order, each the
    verification of its own chain alone.  When the verification of a
    chain throws, [processChains] throws what the first such chain threw
    and returns no outcome for any chain. *)
Theorem processChains_outcomes (rootCertificates chains : list string) (domain : string) :
  let caStore := (buildCaStore P rootCertificates).1 in
  let verification chain := verifyChain P O (chainToCerts chain) domain caStore in
  (NoDup (array_from_set chains)
   ∧ (∀ chain, chain ∈ array_from_set chains ↔ chain ∈ chains)
   ∧ sublist (array_from_set chains) chains)
  ∧ (∀ outcomes,
       processChains P O rootCertificates chains domain = Return outcomes ↔
       Forall2 (λ chain outcome,
                  verification chain = Return outcome
                  ∧ Utils.chain outcome = chainToCerts chain)
               (array_from_set chains) outcomes)
  ∧ (∀ e,
       processChains P O rootCertificates chains domain = Throw e ↔
       ∃ before chain after,
         array_from_set chains = before ++ chain :: after
         ∧ Forall (λ chain', returns (verification chain') = true) before
         ∧ verification chain = Throw e).
Proof.
  intros caStore verification. split; [|split].
  - unfold array_from_set. split; [apply array_from_set_aux_NoDup|]. split.
    + intros chain. rewrite array_from_set_aux_elem. set_solver.
    + apply array_from_set_aux_sublist.
  - intros outcomes. unfold processChains. rewrite traverse_Return.
    split; intros Hall; (eapply Forall2_impl; [exact Hall|]).
    + intros chain outcome H. split; [done|]. by apply verifyChain_chain in H.
    + by intros chain outcome [H _].
  - intros e. unfold processChains. by rewrite traverse_Throw.
Qed.

End ChainFacts.

(** ** utils.ts in the test world *)

Import Scenario.


(** The examples of the [addValueAtPath] documentation. *)
Example addValueAtPath_examples :
  addValueAtPath ∅ "parent/child" "value"
  = Return {["parent" := VObject {["child" := VString "value"]}]}
  ∧ addValueAtPath ∅ "parent[]/child" "value"
    = Return {["parent" := VArray [VObject {["child" := VString "value"]}]]}
  ∧ (let! object := addValueAtPath ∅ "array[]" "A" in
     addValueAtPath object "array[]" "B")
    = Return {["array" := VArray [VString "A"; VString "B"]]}.
Proof. repeat split; vm_compute; reflexivity. Qed.

(** Paths that meet the prototype.  A [{}] inherits [toString] and
    [constructor], functions without [push].  Assigning a string to
    [__proto__] changes nothing; a path through [__proto__] gives the
    object a prototype of its own, whose properties it then inherits: an
    inherited string has no [push], an inherited array is appended to
    where it is, and an assignment makes an own property that hides the
    inherited one. *)
Example addValueAtPath_prototype_examples :
  addValueAtPath ∅ "toString[]" "x" = Throw push_TypeError
  ∧ addValueAtPath ∅ "a/constructor[]" "x" = Throw push_TypeError
  ∧ addValueAtPath ∅ "__proto__[]" "x" = Throw push_TypeError
  ∧ addValueAtPath ∅ "toString" "x" = Return {["toString" := VString "x"]}
  ∧ addValueAtPath ∅ "__proto__" "x" = Return ∅
  ∧ addValueAtPath ∅ "__proto__/x" "v"
    = Return {["__proto__" := VObject {["x" := VString "v"]}]}
  ∧ addValueAtPath {["__proto__" := VObject {["x" := VString "v"]}]} "x[]" "w"
    = Throw push_TypeError
  ∧ addValueAtPath ∅ "__proto__/list[]" "a" = Return withPrototype
  ∧ addValueAtPath withPrototype "list[]" "b"
    = Return {["__proto__" := VObject {["list" := VArray [VString "a"; VString "b"]]}]}
  ∧ addValueAtPath withPrototype "list" "b"
    = Return (<["list" := VString "b"]> withPrototype).
Proof. repeat split; vm_compute; reflexivity. Qed.

Lemma addValueAtPath_descent_witness :
  addValueAtPath withArray "parent[]/childB" "valueB"
  = Return {["parent" := VArray [VObject {["childA" := VString "valueA"]};
                                 VObject {["childB" := VString "valueB"]}]]}
  ∧ addValueAtPath ∅ "parent[]/childB" "valueB"
    = Return {["parent" := VArray [VObject {["childB" := VString "valueB"]}]]}
  ∧ addValueAtPath withArray "parent/childB" "valueB"
    = Return {["parent" := VObject {["childB" := VString "valueB"]}]}.
Proof.
  split; [|split].
  - etransitivity;
      [apply (proj1 (addValueAtPath_descent withArray "parent" "childB" "valueB"
                       eq_refl ltac:(discriminate))
                [VObject {["childA" := VString "valueA"]}])|];
      vm_compute; reflexivity.
  - etransitivity;
      [apply (proj1 (proj2 (addValueAtPath_descent ∅ "parent" "childB" "valueB"
                              eq_refl ltac:(discriminate))))|];
      [right; split; [|split]; [vm_compute; reflexivity..|]|vm_compute; reflexivity].
    apply (bool_decide_eq_false_1 _); vm_compute; reflexivity.
  - etransitivity;
      [apply (proj2 (proj2 (addValueAtPath_descent withArray "parent" "childB" "valueB"
                              eq_refl ltac:(discriminate))))|];
      vm_compute; reflexivity.
Defined.

(** The array under [parent] is there before the walk, and the walk still
    appends a fresh element: the former last element is not the one
    descended into. *)
Lemma addValueAtPath_appends_to_existing_array :
  withArray !! "parent" = Some (VArray [VObject {["childA" := VString "valueA"]}])
  ∧ addValueAtPath withArray "parent[]/childB" "valueB"
    = Return {["parent" := VArray [VObject {["childA" := VString "valueA"]};
                                   VObject {["childB" := VString "valueB"]}]]}
  ∧ addValueAtPath withArray "parent[]/childB" "valueB"
    ≠ Return {["parent" := VArray [VObject (<["childB" := VString "valueB"]>
                                             {["childA" := VString "valueA"]})]]}.
Proof.
  split; [|split]; [vm_compute; reflexivity..|].
  vm_compute. discriminate.
Qed.

Example buildCaStore_example :
  buildCaStore pki rootCertificates = ([commonName "Test CA" rootCert], [1]).
Proof. vm_compute. reflexivity. Qed.

(** The good chain alone is verified and valid; verified together with a
    chain that does not parse, it gets no outcome at all. *)
Lemma processChains_throws_for_all :
  processChains pki ocsp rootCertificates [chainGood] "tls-did.de"
  = Return [VerifiedChain [cert; intermediateCert] true]
  ∧ processChains pki ocsp rootCertificates [chainGood; chainGarbage] "tls-did.de"
    = Throw invalid_pem
  ∧ processChains pki ocsp rootCertificates [chainGarbage; chainGood] "tls-did.de"
    = Throw invalid_pem.
Proof. repeat split; vm_compute; reflexivity. Qed.

(** C2, at a chain the code fails on.  The leaf has no responder URI, its
    path to the root validates and its subject is the domain: the
    revocation check is not skipped, [checkForOCSP] rejects with [false],
    and the rejection leaves [verifyChain], [processChains] and the whole
    resolution.  With the leaf that has a responder the same chain is
    returned as valid. *)
Theorem verifyChain_without_responder_throws :
  getOCSPURI ocsp (Some certNoOcsp)
  = Called (Some (Error "AuthorityInfoAccess not found in extensions")) None
  ∧ verifyCertificateChain pki caStore
      [commonName "tls-did.de" certNoOcsp; commonName "Test CA" intermediateCert]
    = Return true
  ∧ verifyCertSubject pki (Some certNoOcsp) "tls-did.de" = Return true
  ∧ checkForOCSP ocsp (Some certNoOcsp) = Throw ThrownFalse
  ∧ verifyChain pki ocsp [certNoOcsp; intermediateCert] "tls-did.de" caStore
    = Throw ThrownFalse
  ∧ processChains pki ocsp rootCertificates [chainNoOcsp] "tls-did.de"
    = Throw ThrownFalse
  ∧ verifyChain pki ocsp [cert; intermediateCert] "tls-did.de" caStore
    = Return (VerifiedChain [cert; intermediateCert] true).
Proof. repeat split; vm_compute; reflexivity. Qed.


End UtilsFacts.

(** * Properties of resolver.ts *)

Module ResolverFacts.

Import Utils Resolver UtilsFacts.

Section ResolutionFacts.

Context (L : Ledger) (C : Crypto) (P : Pki) (O : Ocsp).
Context (now : Z) (rootCertificates : list string).

#[local] Abbreviation verifyContract := (Resolver.verifyContract L C now) (only parsing).
#[local] Abbreviation selectContract := (Resolver.selectContract L C now) (only parsing).
#[local] Abbreviation resolveContract :=
  (Resolver.resolveContract L C P O now rootCertificates) (only parsing).

(** The candidates the loop counts as valid, in the order of the
    addresses. *)
#[local] Abbreviation matching did cert addresses :=
  (List.filter (λ address, bool_decide (verifyContract address did cert = Return true))
               addresses) (only parsing).

(** ** The selection loop *)

Lemma selectContract_cons (found : nat) (did : string) (cert : option string)
    (address : string) (addresses : list string) (validContract : option string) :
  selectContract found did cert (address :: addresses) validContract
  = if bool_decide (verifyContract address did cert = Return true) then
      match validContract with
      | None => selectContract found did cert addresses (Some address)
      | Some _ => Throw (AmbiguousCandidate found)
      end
    else selectContract found did cert addresses validContract.
Proof.
  cbn [Resolver.selectContract].
  destruct (verifyContract address did cert) as [[]|e]; cbn [andb negb].
  - rewrite (bool_decide_eq_true_2 (_ = _)) by done.
    by destruct validContract.
  - by rewrite (bool_decide_eq_false_2 (_ = _)) by done.
  - by rewrite (bool_decide_eq_false_2 (_ = _)) by done.
Qed.

Lemma selectContract_matching (found : nat) (did : string) (cert : option string)
    (addresses : list string) (validContract : option string) :
  selectContract found did cert addresses validContract
  = match matching did cert addresses, validContract with
    | [], _ => Return validContract
    | [address], None => Return (Some address)
    | _, _ => Throw (AmbiguousCandidate found)
    end.
Proof.
  revert validContract.
  induction addresses as [|address addresses IH]; intros validContract;
    [by destruct validContract|].
  rewrite selectContract_cons. cbn [List.filter].
  destruct (bool_decide _); [|apply IH].
  destruct validContract as [contract|];
    [by destruct (List.filter _ addresses)|].
  rewrite IH. by destruct (List.filter _ addresses) as [|? []].
Qed.

Lemma selectContract_Throw (found : nat) (did : string) (cert : option string)
    (addresses : list string) (validContract : option string) (e : thrown) :
  selectContract found did cert addresses validContract = Throw e →
  e = AmbiguousCandidate found.
Proof.
  rewrite selectContract_matching.
  destruct (List.filter _ addresses) as [|? []], validContract; congruence.
Qed.

Lemma selectContract_skip (found : nat) (did : string) (cert : option string)
    (before after : list string) (address : string)
    (validContract : option string) (e : thrown) :
  verifyContract address did cert = Throw e →
  selectContract found did cert (before ++ address :: after) validContract
  = selectContract found did cert (before ++ after) validContract.
Proof.
  intros He. rewrite !selectContract_matching, !List.filter_app.
  cbn [List.filter]. by rewrite He, (bool_decide_eq_false_2 (_ = _)) by done.
Qed.

(** ** The stages of [resolveContract] *)

Lemma resolveContract_chains (did registryAddress : string)
    (addresses chains : list string) (outcomes : list verified_chain) :
  registry_getContracts L registryAddress (substring_from 8 did) = Return addresses →
  addresses ≠ [] →
  getChains L (substring_from 8 did) = Return chains →
  chains ≠ [] →
  processChains P O rootCertificates chains (substring_from 8 did) = Return outcomes →
  resolveContract did registryAddress
  = match List.filter valid outcomes with
    | [] => Throw NoValidChain
    | [validChain] =>
        let cert := chain validChain !! 0 in
        let! validContract :=
          selectContract (length addresses) did cert addresses None in
        match validContract with
        | Some contract => let! jwk := x509ToJwk C cert in Return (contract, jwk)
        | None => Throw (NoValidCandidate (length addresses))
        end
    | _ => Throw AmbiguousChain
    end.
Proof.
  intros Haddresses Hne Hchains Hne' Houtcomes.
  unfold Resolver.resolveContract.
  rewrite Haddresses. cbn [bind].
  destruct addresses as [|address addresses]; [done|]. cbn [length Nat.eqb].
  rewrite Hchains. cbn [bind].
  destruct chains as [|blob chains]; [done|]. cbn [length Nat.eqb].
  rewrite Houtcomes. cbn [bind].
  by destruct (List.filter valid outcomes) as [|validChain [|? ?]].
Qed.

(** C1.  Once the addresses and the chains of the domain are there and
    the chains have been verified, [resolveContract] throws what the
    specification calls NoValidChain when no outcome is marked valid and
    what it calls AmbiguousChain when more than one is: with two or more
    valid chains no chain is picked and nothing is returned. *)
Theorem resolveContract_valid_chains (did registryAddress : string)
    (addresses chains : list string) (outcomes : list verified_chain) :
  registry_getContracts L registryAddress (substring_from 8 did) = Return addresses →
  addresses ≠ [] →
  getChains L (substring_from 8 did) = Return chains →
  chains ≠ [] →
  processChains P O rootCertificates chains (substring_from 8 did) = Return outcomes →
  (length (List.filter valid outcomes) = 0 →
   resolveContract did registryAddress = Throw NoValidChain)
  ∧ (1 < length (List.filter valid outcomes) →
     resolveContract did registryAddress = Throw AmbiguousChain).
Proof.
  intros Haddresses Hne Hchains Hne' Houtcomes.
  rewrite (resolveContract_chains _ _ _ _ _ Haddresses Hne Hchains Hne' Houtcomes).
  destruct (List.filter valid outcomes) as [|validChain [|? ?]]; simpl;
    split; intros; (done || lia).
Qed.

(** C3.  With the one valid chain [validChain], a candidate matches when
    [verifyContract] returns [true] for it against the chain's leaf.  One
    match: [resolveContract] returns that candidate's address with the
    key descriptor of the leaf.  No match: it throws what the
    specification calls NoValidCandidate.  More than one: it throws
    AmbiguousCandidate. *)
Theorem resolveContract_candidates (did registryAddress : string)
    (addresses chains : list string) (outcomes : list verified_chain)
    (validChain : verified_chain) :
  registry_getContracts L registryAddress (substring_from 8 did) = Return addresses →
  addresses ≠ [] →
  getChains L (substring_from 8 did) = Return chains →
  chains ≠ [] →
  processChains P O rootCertificates chains (substring_from 8 did) = Return outcomes →
  List.filter valid outcomes = [validChain] →
  let cert := chain validChain !! 0 in
  (∀ contract jwk,
     matching did cert addresses = [contract] →
     x509ToJwk C cert = Return jwk →
     resolveContract did registryAddress = Return (contract, jwk))
  ∧ (matching did cert addresses = [] →
     resolveContract did registryAddress = Throw (NoValidCandidate (length addresses)))
  ∧ (1 < length (matching did cert addresses) →
     resolveContract did registryAddress = Throw (AmbiguousCandidate (length addresses))).
Proof.
  intros Haddresses Hne Hchains Hne' Houtcomes Hvalid cert.
  rewrite (resolveContract_chains _ _ _ _ _ Haddresses Hne Hchains Hne' Houtcomes).
  rewrite Hvalid. cbv zeta. fold cert. rewrite selectContract_matching.
  split; [|split].
  - intros contract jwk -> Hjwk. cbn [bind]. by rewrite Hjwk.
  - by intros ->.
  - intros Hlen. destruct (List.filter _ addresses) as [|? [|? ?]]; simpl in *;
      (done || lia).
Qed.

(** ** Candidates that throw *)

Lemma traverse_returns {A B : Type} (f : A → completion B) (l : list A) :
  (∀ x, x ∈ l → returns (f x) = true) → ∃ ys, traverse f l = Return ys.
Proof.
  induction l as [|x l IH]; intros H; [by eexists|]. simpl.
  destruct (f x) as [y|] eqn:Ex.
  - destruct IH as [ys ->]; [intros; apply H; set_solver|]. by eexists.
  - specialize (H x). rewrite Ex in H. simpl in H.
    exfalso. assert (x ∈ x :: l) as Hin by set_solver. by specialize (H Hin).
Qed.

Lemma verifyContract_DomainMismatch (contract did : string) (cert : option string)
    (signature contractDomain : string) :
  contract_signature L contract = Return signature →
  contract_domain L contract = Return contractDomain →
  contractDomain ≠ substring_from 8 did →
  verifyContract contract did cert = Throw DomainMismatch.
Proof.
  intros Hsignature Hdomain Hne. unfold Resolver.verifyContract.
  rewrite Hsignature, Hdomain. cbn [bind].
  destruct (String.eqb_spec (substring_from 8 did) contractDomain); [by subst|done].
Qed.

Lemma verifyContract_Expired (contract did : string) (cert : option string)
    (signature : string) (attributeCount : nat) (expiry : Z) :
  contract_signature L contract = Return signature →
  contract_domain L contract = Return (substring_from 8 did) →
  contract_getAttributeCount L contract = Return attributeCount →
  (∀ i, i < attributeCount → returns (contract_getAttribute L contract i) = true) →
  contract_expiry L contract = Return expiry →
  (expiry < now)%Z →
  verifyContract contract did cert = Throw Expired.
Proof.
  intros Hsignature Hdomain Hcount Hattributes Hexpiry Hlt.
  unfold Resolver.verifyContract.
  rewrite Hsignature, Hdomain, Hcount. cbn [bind].
  rewrite String.eqb_refl. cbn [negb].
  edestruct (traverse_returns
    (λ i, let! attribute := contract_getAttribute L contract i in
          Return {| Types.path := attribute.1; Types.value := attribute.2 |})
    (seq 0 attributeCount)) as [attributes ->].
  { intros i [_ Hi]%elem_of_seq. specialize (Hattributes i).
    destruct (contract_getAttribute L contract i); [done|]. apply Hattributes. lia. }
  cbn [bind]. rewrite Hexpiry. cbn [bind].
  by rewrite (proj2 (Z.ltb_lt _ _) Hlt).
Qed.

(** C7.  [verifyContract] throws on a candidate whose domain is not the
    DID's and on an expired one.  Whatever a candidate's verification
    throws, the loop goes on as if the candidate were not among the
    addresses: the candidates before and after it are evaluated all the
    same.  The only error the loop itself ever throws is the one for
    several valid candidates, never what a verification threw. *)
Theorem selectContract_catches (found : nat) (did : string) (cert : option string) :
  (∀ contract signature contractDomain,
     contract_signature L contract = Return signature →
     contract_domain L contract = Return contractDomain →
     contractDomain ≠ substring_from 8 did →
     verifyContract contract did cert = Throw DomainMismatch)
  ∧ (∀ contract signature attributeCount expiry,
       contract_signature L contract = Return signature →
       contract_domain L contract = Return (substring_from 8 did) →
       contract_getAttributeCount L contract = Return attributeCount →
       (∀ i, i < attributeCount → returns (contract_getAttribute L contract i) = true) →
       contract_expiry L contract = Return expiry →
       (expiry < now)%Z →
       verifyContract contract did cert = Throw Expired)
  ∧ (∀ before address after validContract e,
       verifyContract address did cert = Throw e →
       selectContract found did cert (before ++ address :: after) validContract
       = selectContract found did cert (before ++ after) validContract)
  ∧ (∀ addresses validContract e,
       selectContract found did cert addresses validContract = Throw e →
       e = AmbiguousCandidate found).
Proof.
  split; [|split; [|split]].
  - intros contract signature contractDomain.
    apply verifyContract_DomainMismatch.
  - intros contract signature attributeCount expiry.
    apply verifyContract_Expired.
  - intros before address after validContract e. apply selectContract_skip.
  - intros addresses validContract e. apply selectContract_Throw.
Qed.

(** ** The domain of a DID *)

Lemma substring_from_app (prefix rest : string) :
  substring_from (String.length prefix) (prefix +:+ rest) = rest.
Proof. induction prefix as [|a prefix IH]; [done|]. by rewrite app_String. Qed.

Lemma substring_from_short (n : nat) (s : string) :
  (String.length s ≤ n)%nat → substring_from n s = "".
Proof.
  revert n. induction s as [|a s IH]; intros [|n] H; simpl in *; try done; try lia.
  apply IH. lia.
Qed.

Lemma verifyContract_did (contract did did' : string) (cert : option string) :
  substring_from 8 did' = substring_from 8 did →
  verifyContract contract did' cert = verifyContract contract did cert.
Proof. unfold Resolver.verifyContract. by intros ->. Qed.

Lemma selectContract_did (found : nat) (did did' : string) (cert : option string)
    (addresses : list string) (validContract : option string) :
  substring_from 8 did' = substring_from 8 did →
  selectContract found did' cert addresses validContract
  = selectContract found did cert addresses validContract.
Proof.
  intros Hdid. revert validContract.
  induction addresses as [|address addresses IH]; intros validContract; [done|].
  rewrite !selectContract_cons, (verifyContract_did _ _ _ _ Hdid), !IH. done.
Qed.

Lemma resolveContract_did (did did' registryAddress : string) :
  substring_from 8 did' = substring_from 8 did →
  resolveContract did' registryAddress = resolveContract did registryAddress.
Proof.
  intros Hdid. unfold Resolver.resolveContract. rewrite Hdid.
  destruct (registry_getContracts L _ _) as [addresses|]; cbn [bind]; [|done].
  destruct (length addresses =? 0)%nat; [done|].
  destruct (getChains L _) as [chains|]; cbn [bind]; [|done].
  destruct (length chains =? 0)%nat; [done|].
  destruct (processChains _ _ _ _ _) as [outcomes|]; cbn [bind]; [|done].
  cbv zeta.
  destruct (length (List.filter valid outcomes) =? 0)%nat; [done|].
  destruct (1 <? length (List.filter valid outcomes))%nat; [done|].
  by rewrite (selectContract_did _ _ _ _ _ _ Hdid).
Qed.

(** A ledger that answers the same for the domain of the DID, and the
    same for every contract, gives the same resolution: the registries
    are asked about that domain and no other. *)
Section OtherLedger.

Context (L' : Ledger).
Context (did registryAddress : string).

Hypothesis same_contracts :
  registry_getContracts L' registryAddress (substring_from 8 did)
  = registry_getContracts L registryAddress (substring_from 8 did).
Hypothesis same_chainCount :
  certRegistry_getChainCount L' (substring_from 8 did)
  = certRegistry_getChainCount L (substring_from 8 did).
Hypothesis same_chain :
  ∀ i, certRegistry_getChain L' (substring_from 8 did) i
       = certRegistry_getChain L (substring_from 8 did) i.
Hypothesis same_signature : contract_signature L' = contract_signature L.
Hypothesis same_domain : contract_domain L' = contract_domain L.
Hypothesis same_attributeCount :
  contract_getAttributeCount L' = contract_getAttributeCount L.
Hypothesis same_attribute : contract_getAttribute L' = contract_getAttribute L.
Hypothesis same_expiry : contract_expiry L' = contract_expiry L.

Lemma verifyContract_ledger (contract did0 : string) (cert : option string) :
  Resolver.verifyContract L' C now contract did0 cert
  = verifyContract contract did0 cert.
Proof using same_signature same_domain same_attributeCount same_attribute same_expiry.
  unfold Resolver.verifyContract.
  by rewrite same_signature, same_domain, same_attributeCount, same_attribute,
    same_expiry.
Qed.

Lemma selectContract_ledger (found : nat) (did0 : string) (cert : option string)
    (addresses : list string) (validContract : option string) :
  Resolver.selectContract L' C now found did0 cert addresses validContract
  = selectContract found did0 cert addresses validContract.
Proof using same_signature same_domain same_attributeCount same_attribute same_expiry.
  revert validContract.
  induction addresses as [|address addresses IH]; intros validContract; [done|].
  cbn [Resolver.selectContract]. by rewrite verifyContract_ledger, !IH.
Qed.

Lemma resolveContract_ledger :
  Resolver.resolveContract L' C P O now rootCertificates did registryAddress
  = resolveContract did registryAddress.
Proof using All.
  unfold Resolver.resolveContract. rewrite same_contracts.
  destruct (registry_getContracts L _ _) as [addresses|]; cbn [bind]; [|done].
  destruct (length addresses =? 0)%nat; [done|].
  assert (getChains L' (substring_from 8 did) = getChains L (substring_from 8 did)) as ->.
  { unfold getChains. rewrite same_chainCount.
    destruct (certRegistry_getChainCount L _); cbn [bind]; [|done].
    by apply traverse_ext. }
  destruct (getChains L _) as [chains|]; cbn [bind]; [|done].
  destruct (length chains =? 0)%nat; [done|].
  destruct (processChains _ _ _ _ _) as [outcomes|]; cbn [bind]; [|done].
  cbv zeta.
  destruct (length (List.filter valid outcomes) =? 0)%nat; [done|].
  destruct (1 <? length (List.filter valid outcomes))%nat; [done|].
  by rewrite selectContract_ledger.
Qed.

End OtherLedger.

Lemma verifyContract_Return (contract did : string) (cert : option string)
    (valid : bool) :
  verifyContract contract did cert = Return valid →
  contract_domain L contract = Return (substring_from 8 did).
Proof.
  unfold Resolver.verifyContract.
  destruct (contract_signature L contract); cbn [bind]; [|done].
  destruct (contract_domain L contract) as [contractDomain|]; cbn [bind]; [|done].
  destruct (String.eqb_spec (substring_from 8 did) contractDomain); [|done].
  by subst.
Qed.

Lemma verifyCertSubject_true (cert : option string) (subject : string) :
  verifyCertSubject P cert subject = Return true →
  ∃ pkiObject, certificateFromPem P cert = Return pkiObject
               ∧ first_subject_value pkiObject = Some subject.
Proof.
  unfold verifyCertSubject.
  destruct (certificateFromPem P cert) as [pkiObject|]; cbn [bind]; [|done].
  intros [= H]. exists pkiObject. split; [done|]. by apply bool_decide_eq_true in H.
Qed.

(** What a returned resolution has gone through. *)
Lemma resolveContract_Return (did registryAddress contract : string) (jwk : value) :
  resolveContract did registryAddress = Return (contract, jwk) →
  contract_domain L contract = Return (substring_from 8 did)
  ∧ ∃ chains outcomes validChain pkiObject,
      getChains L (substring_from 8 did) = Return chains
      ∧ processChains P O rootCertificates chains (substring_from 8 did)
        = Return outcomes
      ∧ List.filter valid outcomes = [validChain]
      ∧ certificateFromPem P (chain validChain !! 0) = Return pkiObject
      ∧ first_subject_value pkiObject = Some (substring_from 8 did)
      ∧ x509ToJwk C (chain validChain !! 0) = Return jwk.
Proof.
  unfold Resolver.resolveContract. intros H.
  destruct (registry_getContracts L _ _) as [addresses|]; cbn [bind] in H; [|done].
  destruct (length addresses =? 0)%nat; [done|].
  destruct (getChains L _) as [chains|]; cbn [bind] in H; [|done].
  destruct (length chains =? 0)%nat; [done|].
  destruct (processChains _ _ _ _ _) as [outcomes|] eqn:Houtcomes;
    cbn [bind] in H; [|done].
  cbv zeta in H.
  destruct (List.filter valid outcomes) as [|validChain [|? ?]] eqn:Hvalid;
    cbn [length Nat.eqb Nat.ltb Nat.leb] in H; [done| |done].
  change ([validChain] !! 0 ≫= λ validChain0, chain validChain0 !! 0)
    with (chain validChain !! 0) in H.
  rewrite selectContract_matching in H.
  destruct (List.filter _ addresses) as [|address [|? ?]] eqn:Hmatching; [done| |done].
  cbn [bind] in H.
  destruct (x509ToJwk C _) as [jwk'|] eqn:Hjwk; cbn [bind] in H; [|done].
  injection H as <- <-.
  assert (address ∈ [address]) as Hin by set_solver.
  rewrite <- Hmatching, list_elem_of_In, List.filter_In in Hin.
  destruct Hin as [_ Hmatch%bool_decide_eq_true]. split.
  { by apply verifyContract_Return in Hmatch. }
  exists chains, outcomes, validChain.
  assert (validChain ∈ outcomes ∧ valid validChain = true) as [Hin Hok].
  { assert (validChain ∈ [validChain]) as Hin by set_solver.
    by rewrite <- Hvalid, list_elem_of_In, List.filter_In, <- list_elem_of_In in Hin. }
  apply traverse_Return in Houtcomes as Hall.
  destruct (list_elem_of_lookup_1 _ _ Hin) as [i Hi].
  destruct (Forall2_lookup_r _ _ _ i validChain Hall Hi) as (blob & _ & Hverify).
  pose proof (verifyChain_chain P O _ _ _ _ Hverify) as Hchain.
  destruct (verifyChain_valid P O _ _ _ _ Hverify Hok) as (_ & Hsubject & _).
  rewrite <- Hchain in Hsubject.
  apply verifyCertSubject_true in Hsubject as (pkiObject & Hparse & Hfirst).
  by exists pkiObject.
Qed.

(** C10.  The domain of a DID is the DID without its first 8 characters,
    whatever these are; a DID of fewer than 8 characters has the empty
    domain, and nothing is thrown for it.  The resolution depends on the
    DID through this domain alone, so no prefix is checked.  The
    registries are asked about this domain and no other: a ledger that
    agrees on it (and on the contracts) resolves the same.  A candidate's
    verification returns only when the contract's domain is this domain,
    and a resolution that returns has a valid chain whose leaf has this
    domain as its first subject attribute. *)
Theorem resolveContract_domain (did registryAddress : string) :
  (∀ prefix rest,
     did = prefix +:+ rest → String.length prefix = 8 → substring_from 8 did = rest)
  ∧ ((String.length did < 8)%nat → substring_from 8 did = "")
  ∧ (∀ did',
       substring_from 8 did' = substring_from 8 did →
       resolveContract did' registryAddress = resolveContract did registryAddress)
  ∧ (∀ L' : Ledger,
       registry_getContracts L' registryAddress (substring_from 8 did)
       = registry_getContracts L registryAddress (substring_from 8 did) →
       certRegistry_getChainCount L' (substring_from 8 did)
       = certRegistry_getChainCount L (substring_from 8 did) →
       (∀ i, certRegistry_getChain L' (substring_from 8 did) i
             = certRegistry_getChain L (substring_from 8 did) i) →
       contract_signature L' = contract_signature L →
       contract_domain L' = contract_domain L →
       contract_getAttributeCount L' = contract_getAttributeCount L →
       contract_getAttribute L' = contract_getAttribute L →
       contract_expiry L' = contract_expiry L →
       Resolver.resolveContract L' C P O now rootCertificates did registryAddress
       = resolveContract did registryAddress)
  ∧ (∀ contract cert valid,
       verifyContract contract did cert = Return valid →
       contract_domain L contract = Return (substring_from 8 did))
  ∧ (∀ contract jwk,
       resolveContract did registryAddress = Return (contract, jwk) →
       contract_domain L contract = Return (substring_from 8 did)
       ∧ ∃ chains outcomes validChain pkiObject,
           getChains L (substring_from 8 did) = Return chains
           ∧ processChains P O rootCertificates chains (substring_from 8 did)
             = Return outcomes
           ∧ List.filter valid outcomes = [validChain]
           ∧ certificateFromPem P (chain validChain !! 0) = Return pkiObject
           ∧ first_subject_value pkiObject = Some (substring_from 8 did)
           ∧ x509ToJwk C (chain validChain !! 0) = Return jwk).
Proof.
  repeat split.
  - intros prefix rest -> <-. apply substring_from_app.
  - intros Hlen. apply substring_from_short. lia.
  - intros did'. apply resolveContract_did.
  - intros L'. apply resolveContract_ledger.
  - intros contract cert valid. apply verifyContract_Return.
  - by eapply resolveContract_Return.
  - by eapply resolveContract_Return.
Qed.

End ResolutionFacts.

(** ** The resolver in the test world *)

Import Scenario.

Example candidate_errors_messages :
  AmbiguousCandidate 3 = Error "3 contracts were found. Multiple were valid."
  ∧ NoValidCandidate 12 = Error "12 contracts were found. None was valid.".
Proof. split; vm_compute; reflexivity. Qed.

Lemma resolveContract_valid_chains_witness :
  resolveContract (ledger "tls-did.de" ["0xA"] [chainOther; chainRevoked])
    crypto pki ocsp now rootCertificates did REGISTRY
  = Throw NoValidChain
  ∧ resolveContract (ledger "tls-did.de" ["0xA"] [chainGood; chainTwin])
      crypto pki ocsp now rootCertificates did REGISTRY
    = Throw AmbiguousChain.
Proof.
  split.
  - apply (resolveContract_valid_chains
             (ledger "tls-did.de" ["0xA"] [chainOther; chainRevoked])
             crypto pki ocsp now rootCertificates did REGISTRY
             ["0xA"] [chainOther; chainRevoked]
             [VerifiedChain [certOther; intermediateCert] false;
              VerifiedChain [certRevoked; intermediateCert] false]);
      try discriminate; vm_compute; reflexivity.
  - apply (resolveContract_valid_chains
             (ledger "tls-did.de" ["0xA"] [chainGood; chainTwin])
             crypto pki ocsp now rootCertificates did REGISTRY
             ["0xA"] [chainGood; chainTwin]
             [VerifiedChain [cert; intermediateCert] true;
              VerifiedChain [certTwin; intermediateCert] true]);
      try discriminate; vm_compute; reflexivity.
Defined.

Lemma resolveContract_candidates_witness :
  resolveContract (ledger "tls-did.de" ["0xC"; "0xA"; "0xE"] [chainGood; chainOther])
    crypto pki ocsp now rootCertificates did REGISTRY
  = Return ("0xA", jwk)
  ∧ resolveContract (ledger "tls-did.de" ["0xC"; "0xD"; "0xE"] [chainGood; chainOther])
      crypto pki ocsp now rootCertificates did REGISTRY
    = Throw (NoValidCandidate 3)
  ∧ resolveContract (ledger "tls-did.de" ["0xA"; "0xC"; "0xB"] [chainGood; chainOther])
      crypto pki ocsp now rootCertificates did REGISTRY
    = Throw (AmbiguousCandidate 3).
Proof.
  split; [|split].
  - apply (resolveContract_candidates
             (ledger "tls-did.de" ["0xC"; "0xA"; "0xE"] [chainGood; chainOther])
             crypto pki ocsp now rootCertificates did REGISTRY
             ["0xC"; "0xA"; "0xE"] [chainGood; chainOther]
             [VerifiedChain [cert; intermediateCert] true;
              VerifiedChain [certOther; intermediateCert] false]
             (VerifiedChain [cert; intermediateCert] true));
      try discriminate; vm_compute; reflexivity.
  - apply (resolveContract_candidates
             (ledger "tls-did.de" ["0xC"; "0xD"; "0xE"] [chainGood; chainOther])
             crypto pki ocsp now rootCertificates did REGISTRY
             ["0xC"; "0xD"; "0xE"] [chainGood; chainOther]
             [VerifiedChain [cert; intermediateCert] true;
              VerifiedChain [certOther; intermediateCert] false]
             (VerifiedChain [cert; intermediateCert] true));
      try discriminate; vm_compute; reflexivity.
  - apply (resolveContract_candidates
             (ledger "tls-did.de" ["0xA"; "0xC"; "0xB"] [chainGood; chainOther])
             crypto pki ocsp now rootCertificates did REGISTRY
             ["0xA"; "0xC"; "0xB"] [chainGood; chainOther]
             [VerifiedChain [cert; intermediateCert] true;
              VerifiedChain [certOther; intermediateCert] false]
             (VerifiedChain [cert; intermediateCert] true));
      try discriminate; vm_compute; reflexivity.
Defined.

Lemma selectContract_catches_witness :
  verifyContract (ledger "tls-did.de" [] []) crypto now "0xC" did (Some cert)
  = Throw DomainMismatch
  ∧ verifyContract (ledger "tls-did.de" [] []) crypto now "0xD" did (Some cert)
    = Throw Expired
  ∧ selectContract (ledger "tls-did.de" [] []) crypto now 4 did (Some cert)
      ["0xC"; "0xD"; "0xF"; "0xA"] None
    = Return (Some "0xA").
Proof.
  destruct (selectContract_catches (ledger "tls-did.de" [] []) crypto now 4 did (Some cert))
    as (Hdomain & Hexpired & Hskip & _).
  assert (verifyContract (ledger "tls-did.de" [] []) crypto now "0xC" did (Some cert)
          = Throw DomainMismatch) as HC.
  { apply (Hdomain "0xC" "signed:tls-did.de|0xC" "example.org");
      try discriminate; vm_compute; reflexivity. }
  assert (verifyContract (ledger "tls-did.de" [] []) crypto now "0xD" did (Some cert)
          = Throw Expired) as HD.
  { apply (Hexpired "0xD" "signed:tls-did.de|0xD" 1 1000%Z);
      try (vm_compute; reflexivity).
    intros [|i] Hi; [reflexivity | lia]. }
  split; [exact HC|]. split; [exact HD|].
  etransitivity; [exact (Hskip [] "0xC" ["0xD"; "0xF"; "0xA"] None _ HC)|].
  etransitivity; [exact (Hskip [] "0xD" ["0xF"; "0xA"] None _ HD)|].
  etransitivity;
    [apply (Hskip [] "0xF" ["0xA"] None call_exception); vm_compute; reflexivity|].
  vm_compute. reflexivity.
Defined.

Lemma resolveContract_domain_witness :
  substring_from 8 did = "tls-did.de"
  ∧ substring_from 8 "did:tls" = ""
  ∧ resolveContract (ledger "" ["0xA"] [chainEmpty])
      crypto pki ocsp now rootCertificates "did:tls" REGISTRY
    = Return ("0xA", jwk)
  ∧ resolveContract (ledger "tls-did.de" ["0xA"] [chainGood])
      crypto pki ocsp now rootCertificates "no:such:tls-did.de" REGISTRY
    = Return ("0xA", jwk)
  ∧ resolveContract (ledger "tls-did.de" ["0xA"] [chainGood])
      crypto pki ocsp now rootCertificates did "another registry"
    = Return ("0xA", jwk).
Proof.
  pose (world := ledger "tls-did.de" ["0xA"] [chainGood]).
  assert (resolveContract world crypto pki ocsp now rootCertificates did REGISTRY
          = Return ("0xA", jwk)) as Hdid by (vm_compute; reflexivity).
  destruct (resolveContract_domain world crypto pki ocsp now rootCertificates did REGISTRY)
    as (Hprefix & _ & Hsuffix & Hledger & _).
  destruct (resolveContract_domain world crypto pki ocsp now rootCertificates
              "did:tls" REGISTRY) as (_ & Hshort & _).
  split; [|split; [|split; [|split]]].
  - apply (Hprefix "did:tls:" "tls-did.de"); reflexivity.
  - apply Hshort. vm_compute. lia.
  - vm_compute. reflexivity.
  - rewrite <- Hdid. apply Hsuffix. vm_compute. reflexivity.
  - vm_compute. reflexivity.
Defined.

End ResolverFacts.

(** * Further properties of the document assembler *)

Module DocumentFacts.

Import Utils Notions UtilsFacts.

Lemma split_on_first (path : string) :
  split_on "/" path = first_segment path :: tail (split_on "/" path).
Proof.
  unfold first_segment. by destruct (split_on_cons "/" path) as (seg & segs & ->).
Qed.

Lemma split_on_whole (sep : ascii) (s : string) :
  includes_char s sep = false → split_on sep s = [s].
Proof.
  induction s as [|a s IH]; [done|]. simpl.
  intros [Ha Hs]%orb_false_iff. by rewrite Ha, IH.
Qed.

(** What a call does with the object it is given. *)
Lemma addValueAtPath_shape (path : string) (v : string) (object : gmap string value) :
  addValueAtPath object path v
  = if endsWith (first_segment path) "[]" then
      if truthy (get object (root_key path)) then
        match get object (root_key path) with
        | Data (VArray elems) =>
            let! w := written (tail (split_on "/" path)) v in
            Return (store object (root_key path) (elems ++ [w]))
        | _ => Throw push_TypeError
        end
      else
        let! w := written (tail (split_on "/" path)) v in
        Return (assign object (root_key path) (VArray [w]))
    else
      let! w := written (tail (split_on "/" path)) v in
      Return (assign object (root_key path) w).
Proof.
  unfold addValueAtPath, root_key. rewrite split_on_first at 1.
  rewrite addValueAtSegments_shape.
  by destruct (endsWith (first_segment path) "[]").
Qed.

Lemma first_segment_whole (key : string) :
  includes_char key "/" = false →
  first_segment key = key ∧ tail (split_on "/" key) = [].
Proof. intros H. unfold first_segment. by rewrite split_on_whole. Qed.

Lemma root_key_brackets (key : string) :
  includes_char key "/" = false →
  first_segment (key +:+ "[]") = key +:+ "[]"
  ∧ tail (split_on "/" (key +:+ "[]")) = []
  ∧ root_key (key +:+ "[]") = key.
Proof.
  intros H.
  assert (includes_char (key +:+ "[]") "/" = false) as H'
    by (by rewrite includes_char_app, H).
  destruct (first_segment_whole _ H') as [Hfirst Htail].
  split; [done|]. split; [done|].
  unfold root_key. by rewrite Hfirst, endsWith_brackets, slice_brackets.
Qed.

(** The object has no property [key], own or inherited, or the empty
    string as its own property [key]: what [if (currentObj[key])] takes
    for absent. *)
Lemma truthy_nothing (object : gmap string value) (key : string) :
  key ≠ "__proto__" →
  object !! key = Some (VString "")
  ∨ (object !! key = None ∧ object !! "__proto__" = None ∧ key ∉ Object_prototype) →
  truthy (get object key) = false.
Proof.
  intros Hproto [Hempty|(Hnone & Hdefault & Hbuiltin)].
  - by rewrite (get_own _ _ _ Hproto Hempty).
  - by rewrite get_default, bool_decide_eq_false_2.
Qed.

Lemma addValueAtPath_set (key : string) (v : string) (object : gmap string value) :
  includes_char key "/" = false → endsWith key "[]" = false → key ≠ "__proto__" →
  addValueAtPath object key v = Return (<[key := VString v]> object).
Proof.
  intros Hkey Hplain Hproto. rewrite addValueAtPath_shape.
  destruct (first_segment_whole key Hkey) as [Hfirst Htail].
  unfold root_key. rewrite Hfirst, Hplain, Htail. cbn [written bind].
  by rewrite assign_insert.
Qed.

Lemma addValueAtPath_append (key : string) (v : string) (object : gmap string value)
    (elems : list value) :
  includes_char key "/" = false → key ≠ "__proto__" →
  object !! key = Some (VArray elems) →
  addValueAtPath object (key +:+ "[]") v
  = Return (<[key := VArray (elems ++ [VString v])]> object).
Proof.
  intros Hkey Hproto Hlookup. rewrite addValueAtPath_shape.
  destruct (root_key_brackets key Hkey) as (Hfirst & Htail & Hroot).
  rewrite Hfirst, Hroot, Htail, endsWith_brackets, (get_own _ _ _ Hproto Hlookup).
  cbn [truthy written bind]. by rewrite (store_own _ _ _ _ Hlookup).
Qed.

Lemma addValueAtPath_new_array (key : string) (v : string) (object : gmap string value) :
  includes_char key "/" = false → key ≠ "__proto__" →
  object !! key = Some (VString "")
  ∨ (object !! key = None ∧ object !! "__proto__" = None ∧ key ∉ Object_prototype) →
  addValueAtPath object (key +:+ "[]") v = Return (<[key := VArray [VString v]]> object).
Proof.
  intros Hkey Hproto Hnothing. rewrite addValueAtPath_shape.
  destruct (root_key_brackets key Hkey) as (Hfirst & Htail & Hroot).
  rewrite Hfirst, Hroot, Htail, endsWith_brackets, truthy_nothing by done.
  cbn [written bind]. by rewrite assign_insert.
Qed.

(** What the segments after the first one write: nothing, with the
    [TypeError], when one of them appends to a property of
    [Object.prototype]; else a value. *)
Lemma written_fresh (rest : list string) (v : string) :
  if existsb appends_to_builtin rest
  then written rest v = Throw push_TypeError
  else ∃ w, written rest v = Return w.
Proof.
  destruct rest as [|seg rest]; [by eexists|].
  pose proof (addValueAtSegments_fresh (seg :: rest) v) as H. unfold written.
  destruct (existsb _ (seg :: rest)).
  - by rewrite H.
  - destruct H as [child ->]. by eexists.
Qed.

Lemma existsb_appends_to_builtin (segments : list string) :
  existsb appends_to_builtin segments = true ↔
  ∃ segment, segment ∈ segments ∧ endsWith segment "[]" = true
             ∧ slice_0_neg2 segment ∈ Object_prototype.
Proof.
  rewrite existsb_exists. unfold appends_to_builtin.
  split; intros (segment & Hin & H); exists segment.
  - apply andb_true_iff in H as [H1 H2]. apply bool_decide_eq_true in H2.
    by rewrite list_elem_of_In.
  - destruct H as [H1 H2]. rewrite <- list_elem_of_In. split; [done|].
    by rewrite H1, bool_decide_eq_true_2.
Qed.

(** At the last segment of a path, with [key] not [__proto__]: a
    plain key is set to the value, replacing what was there; [key[]]
    appends the value to the array the object has under [key], makes a
    one-element array when the object has no property [key], not an
    inherited one either (or the empty string there), and throws when
    [key] names a function of [Object.prototype] the object does not
    hide. *)
Theorem addValueAtPath_last_segment (key : string) (v : string) :
  includes_char key "/" = false →
  key ≠ "__proto__" →
  (endsWith key "[]" = false →
   ∀ object, addValueAtPath object key v = Return (<[key := VString v]> object))
  ∧ (∀ object elems,
       object !! key = Some (VArray elems) →
       addValueAtPath object (key +:+ "[]") v
       = Return (<[key := VArray (elems ++ [VString v])]> object))
  ∧ (∀ object,
       object !! key = Some (VString "")
       ∨ (object !! key = None ∧ object !! "__proto__" = None
          ∧ key ∉ Object_prototype) →
       addValueAtPath object (key +:+ "[]") v
       = Return (<[key := VArray [VString v]]> object))
  ∧ (∀ object,
       object !! key = None → object !! "__proto__" = None →
       key ∈ Object_prototype →
       addValueAtPath object (key +:+ "[]") v = Throw push_TypeError).
Proof.
  intros Hkey Hproto. split; [|split; [|split]].
  - intros Hplain object. by apply addValueAtPath_set.
  - intros object elems. by apply addValueAtPath_append.
  - intros object. by apply addValueAtPath_new_array.
  - intros object Hnone Hdefault Hbuiltin. rewrite addValueAtPath_shape.
    destruct (root_key_brackets key Hkey) as (Hfirst & Htail & Hroot).
    rewrite Hfirst, Hroot, endsWith_brackets, get_default by done.
    by rewrite bool_decide_eq_true_2.
Qed.

(** On an object whose prototype is [Object.prototype],
    [addValueAtPath] throws in two cases only, and then the [TypeError]
    of the missing [push]: the first segment ends in [[]] and its key
    holds a non-empty string or an object, or names a property of
    [Object.prototype] the object does not hide; or a later segment ends
    in [[]] and its key names a property of [Object.prototype], which the
    fresh [{}] the walk stands on inherits. *)
Theorem addValueAtPath_throws_iff (object : gmap string value) (path : string)
    (v : string) (e : thrown) :
  object !! "__proto__" = None →
  addValueAtPath object path v = Throw e ↔
  e = push_TypeError
  ∧ ((endsWith (first_segment path) "[]" = true
      ∧ ((∃ s, object !! root_key path = Some (VString s) ∧ s ≠ "")
         ∨ (∃ props, object !! root_key path = Some (VObject props))
         ∨ (object !! root_key path = None ∧ root_key path ∈ Object_prototype)))
     ∨ ∃ segment, segment ∈ tail (split_on "/" path)
                  ∧ endsWith segment "[]" = true
                  ∧ slice_0_neg2 segment ∈ Object_prototype).
Proof.
  intros Hdefault. rewrite <- existsb_appends_to_builtin, addValueAtPath_shape.
  pose proof (written_fresh (tail (split_on "/" path)) v) as Hrest.
  set (key := root_key path) in *.
  assert (∀ k : value → gmap string value,
            (let! w := written (tail (split_on "/" path)) v in Return (k w)) = Throw e
            ↔ e = push_TypeError
              ∧ existsb appends_to_builtin (tail (split_on "/" path)) = true) as Hlater.
  { intros k. destruct (existsb _ _).
    - rewrite Hrest. cbn [bind]. naive_solver.
    - destruct Hrest as [w ->]. cbn [bind]. naive_solver. }
  destruct (endsWith (first_segment path) "[]"); [|rewrite Hlater; naive_solver].
  destruct (object !! key) as [x|] eqn:Hx.
  - assert (key ≠ "__proto__") as Hproto by congruence.
    rewrite (get_own _ _ _ Hproto Hx). destruct x as [s|props|elems]; cbn [truthy].
    + destruct (String.eqb_spec s "") as [->|Hs]; cbn [negb].
      * rewrite Hlater. naive_solver.
      * split; [intros [= <-]|]; naive_solver.
    + split; [intros [= <-]|]; naive_solver.
    + rewrite Hlater. naive_solver.
  - rewrite get_default by done. case_bool_decide as Hbuiltin; cbn [truthy].
    + split; [intros [= <-]|]; naive_solver.
    + rewrite Hlater. naive_solver.
Qed.

(** A call that returns has not touched the own properties under the
    other keys. *)
Lemma addValueAtPath_Return_others (object result : gmap string value) (path : string)
    (v : string) :
  addValueAtPath object path v = Return result →
  ∀ key, key ≠ root_key path → key ≠ "__proto__" → result !! key = object !! key.
Proof.
  rewrite addValueAtPath_shape. intros H key Hkey Hproto.
  assert (∀ elems, store object (root_key path) elems !! key = object !! key) as Hstore.
  { intros elems. unfold store. destruct (object !! root_key path).
    - by rewrite lookup_insert_ne.
    - destruct (object !! "__proto__"); [|done]. by rewrite lookup_insert_ne. }
  assert (∀ x, assign object (root_key path) x !! key = object !! key) as Hassign.
  { intros x. unfold assign. case_bool_decide.
    - destruct x; [done| |done]. by rewrite lookup_insert_ne.
    - by rewrite lookup_insert_ne. }
  destruct (written _ v) as [w|]; cbn [bind] in H.
  - destruct (endsWith _ "[]"); [destruct (truthy _)|]; [|by simplify_eq..].
    destruct (get object (root_key path)) as [|[| |elems]|]; by simplify_eq.
  - destruct (endsWith _ "[]"); [destruct (truthy _)|]; [|by simplify_eq..].
    by destruct (get object (root_key path)) as [|[| |elems]|].
Qed.

(** On an object whose prototype is [Object.prototype], a call that
    returns and whose first segment is not [__proto__] has written the
    own property of its first segment and nothing else. *)
Lemma addValueAtPath_Return_root (object result : gmap string value) (path : string)
    (v : string) :
  addValueAtPath object path v = Return result →
  object !! "__proto__" = None → root_key path ≠ "__proto__" →
  ∃ w, result = <[root_key path := w]> object.
Proof.
  rewrite addValueAtPath_shape. intros H Hdefault Hproto.
  destruct (written _ v) as [w|]; cbn [bind] in H.
  - rewrite !assign_insert in H by done.
    destruct (endsWith _ "[]"); [destruct (truthy _)|]; [|by simplify_eq; eexists..].
    destruct (object !! root_key path) as [x|] eqn:Hx.
    + rewrite (get_own _ _ _ Hproto Hx) in H.
      destruct x as [| |elems]; simplify_eq.
      rewrite (store_own _ _ _ _ Hx). by eexists.
    + rewrite get_default in H by done. by case_bool_decide.
  - destruct (endsWith _ "[]"); [destruct (truthy _)|]; [|by simplify_eq..].
    by destruct (get object (root_key path)) as [|[| |elems]|].
Qed.

(** A call of [addValueAtPath] that returns leaves every own
    property unchanged but the one named by the first segment of the path
    (without its [[]]).  On an object whose prototype is
    [Object.prototype], when that segment is not [__proto__], the result
    is the object with that one property written, and its prototype is
    still [Object.prototype]. *)
Theorem addValueAtPath_frame (object result : gmap string value) (path : string)
    (v : string) :
  addValueAtPath object path v = Return result →
  (∀ key, key ≠ root_key path → key ≠ "__proto__" → result !! key = object !! key)
  ∧ (object !! "__proto__" = None → root_key path ≠ "__proto__" →
     (∃ w, result = <[root_key path := w]> object)
     ∧ result !! "__proto__" = None).
Proof.
  intros H. split.
  - by apply (addValueAtPath_Return_others object result path v).
  - intros Hdefault Hproto.
    destruct (addValueAtPath_Return_root _ _ _ _ H Hdefault Hproto) as [w ->].
    split; [by eexists|]. by rewrite lookup_insert_ne.
Qed.

(** When the first segment of a path is a plain key other than
    [__proto__], what the call does depends on the path and the value
    only: it throws, or writes under the key, whatever the object and
    whatever the key held before, sibling properties of an object
    included; applying the same attribute twice gives what applying it
    once gives. *)
Theorem addValueAtPath_plain_root_overwrites (path : string) (v : string) :
  endsWith (first_segment path) "[]" = false →
  first_segment path ≠ "__proto__" →
  ∃ c : completion value,
    (∀ object,
       addValueAtPath object path v
       = let! w := c in Return (<[root_key path := w]> object))
    ∧ (∀ object,
         (let! once := addValueAtPath object path v in addValueAtPath once path v)
         = addValueAtPath object path v).
Proof.
  intros Hplain Hproto. exists (written (tail (split_on "/" path)) v).
  assert (∀ object,
            addValueAtPath object path v
            = let! w := written (tail (split_on "/" path)) v in
              Return (<[root_key path := w]> object)) as Hshape.
  { intros object. rewrite addValueAtPath_shape, Hplain.
    destruct (written _ v); cbn [bind]; [|done].
    rewrite assign_insert; [done|]. unfold root_key. by rewrite Hplain. }
  split; [done|]. intros object. rewrite Hshape.
  destruct (written _ v) as [w|] eqn:Hw; cbn [bind]; [|done].
  rewrite Hshape, ?Hw. cbn [bind]. by rewrite insert_insert_eq.
Qed.

(** Two successive appends [key[]] of [v1] then [v2], with [key] not
    [__proto__], put [v1], [v2] in that order at the end of the array the
    object has under [key], or make the array of the two when the object
    has no property [key], not an inherited one either (or the empty
    string there): appending accumulates in call order and is not
    idempotent. *)
Theorem addValueAtPath_appends_accumulate (key : string) (v1 v2 : string) :
  includes_char key "/" = false →
  key ≠ "__proto__" →
  (∀ object elems,
     object !! key = Some (VArray elems) →
     (let! once := addValueAtPath object (key +:+ "[]") v1 in
      addValueAtPath once (key +:+ "[]") v2)
     = Return (<[key := VArray (elems ++ [VString v1; VString v2])]> object))
  ∧ (∀ object,
       object !! key = Some (VString "")
       ∨ (object !! key = None ∧ object !! "__proto__" = None
          ∧ key ∉ Object_prototype) →
       (let! once := addValueAtPath object (key +:+ "[]") v1 in
        addValueAtPath once (key +:+ "[]") v2)
       = Return (<[key := VArray [VString v1; VString v2]]> object)).
Proof.
  intros Hkey Hproto. split.
  - intros object elems Hlookup.
    rewrite (addValueAtPath_append key v1 object elems Hkey Hproto Hlookup). cbn [bind].
    rewrite (addValueAtPath_append key v2 _ (elems ++ [VString v1]) Hkey Hproto)
      by apply lookup_insert_eq.
    by rewrite insert_insert_eq, <- app_assoc.
  - intros object Hnothing.
    rewrite (addValueAtPath_new_array key v1 object Hkey Hproto Hnothing). cbn [bind].
    rewrite (addValueAtPath_append key v2 _ [VString v1] Hkey Hproto)
      by apply lookup_insert_eq.
    by rewrite insert_insert_eq.
Qed.

(** [__proto__] names the prototype of the object, not a property.
    As the last segment it changes nothing: the value is a string, which
    the setter ignores.  With [[]] it throws, the prototype being an
    object without [push].  As a segment that is not the last one it
    gives the object a fresh [{}] as its prototype, in place of the one
    it had, and the rest of the path is written into that prototype. *)
Theorem addValueAtPath_prototype (object : gmap string value) (rest : string)
    (v : string) :
  addValueAtPath object "__proto__" v = Return object
  ∧ addValueAtPath object "__proto__[]" v = Throw push_TypeError
  ∧ addValueAtPath object ("__proto__[]/" +:+ rest) v = Throw push_TypeError
  ∧ addValueAtPath object ("__proto__/" +:+ rest) v
    = let! child := addValueAtPath ∅ rest v in
      Return (<["__proto__" := VObject child]> object).
Proof.
  split; [done|]. split; [done|]. split.
  - unfold addValueAtPath.
    change ("__proto__[]/" +:+ rest) with ("__proto__" +:+ "[]/" +:+ rest).
    rewrite (split_on_brackets "__proto__" rest eq_refl), addValueAtSegments_shape.
    done.
  - unfold addValueAtPath at 1.
    change ("__proto__/" +:+ rest) with ("__proto__" +:+ "/" +:+ rest).
    rewrite (split_on_plain "__proto__" rest eq_refl), addValueAtSegments_shape.
    change (endsWith "__proto__" "[]") with false. cbv iota.
    rewrite written_rest. by destruct (addValueAtPath ∅ rest v).
Qed.

End DocumentFacts.

(** * Further properties of the chain splitter *)

Module SplitterFacts.

Import Utils Notions UtilsFacts.

Lemma split_pieces_count (s : string) :
  length (split_pieces s).2 = count_boundaries s.
Proof.
  induction s as [|c rest IH]; [done|]. simpl.
  destruct (split_pieces rest) as [piece pieces]. simpl in IH.
  destruct (boundary_at c rest); simpl; by rewrite IH.
Qed.

Lemma count_boundaries_0 (s : string) :
  count_boundaries s = 0 → has_boundary s = false.
Proof.
  induction s as [|c rest IH]; [done|]. simpl.
  destruct (boundary_at c rest); [done|]. apply IH.
Qed.

(** The piece being read is the beginning of the text. *)
Lemma first_piece_prefix (s : string) : ∃ t, s = (split_pieces s).1 +:+ t.
Proof.
  induction s as [|c rest [t IH]]; [by exists ""|]. simpl.
  destruct (split_pieces rest) as [piece pieces]. simpl in IH.
  destruct (boundary_at c rest); simpl.
  - by exists (String c rest).
  - exists t. by rewrite app_String, <- IH.
Qed.

(** A marker at the beginning of the text is in its first piece as a
    whole: no piece ends inside it, since it has no line feed. *)
Lemma first_piece_startsWith (m s : string) :
  includes_char m LF = false →
  startsWith s m = true → startsWith (split_pieces s).1 m = true.
Proof.
  revert s. induction m as [|a m IH]; intros s Hm; [done|].
  simpl in Hm. apply orb_false_iff in Hm as [Ha Hm].
  destruct s as [|b s]; [done|]. simpl.
  intros [Hab Hs]%andb_true_iff. apply Ascii.eqb_eq in Hab as <-.
  specialize (IH s Hm Hs).
  destruct (split_pieces s) as [piece pieces]. simpl in IH.
  unfold boundary_at. rewrite Ha. simpl. by rewrite Ascii.eqb_refl, IH.
Qed.

Lemma pieces_closed (s : string) :
  has_boundary (split_pieces s).1 = false
  ∧ Forall (λ piece, has_boundary piece = false
                     ∧ startsWith piece BEGIN_CERTIFICATE = true)
           (split_pieces s).2.
Proof.
  induction s as [|c rest [IHpiece IHpieces]]; [by split|].
  pose proof (first_piece_prefix rest) as [t Ht].
  simpl. destruct (split_pieces rest) as [piece pieces] eqn:Hsplit.
  simpl in *.
  destruct (boundary_at c rest) eqn:Hboundary; simpl.
  - split; [done|]. constructor; [|done]. split; [done|].
    unfold boundary_at in Hboundary. apply andb_true_iff in Hboundary as [_ Hstart].
    pose proof (first_piece_startsWith BEGIN_CERTIFICATE rest marker_without_LF Hstart) as H.
    by rewrite Hsplit in H.
  - split; [|done]. rewrite IHpiece, orb_false_r.
    unfold boundary_at in *. destruct (Ascii.eqb c LF); [|done].
    rewrite andb_true_l in *.
    destruct (startsWith piece BEGIN_CERTIFICATE) eqn:Hstart; [|done].
    rewrite Ht in Hboundary. by rewrite startsWith_app in Hboundary.
Qed.

Lemma chainToCerts_pair (blob : string) :
  chainToCerts blob = (split_pieces blob).1 :: (split_pieces blob).2.
Proof. unfold chainToCerts. by destruct (split_pieces blob). Qed.

(** The splitter never returns an empty list: it returns one piece more
    than there are line feeds with the begin marker after them.  A blob
    without such a line feed, the empty blob included, comes back as its
    only piece. *)
Theorem chainToCerts_length (blob : string) :
  length (chainToCerts blob) = S (count_boundaries blob)
  ∧ (count_boundaries blob = 0 → chainToCerts blob = [blob]).
Proof.
  split.
  - rewrite chainToCerts_pair. simpl. by rewrite split_pieces_count.
  - intros H%count_boundaries_0. by rewrite chainToCerts_pair, split_pieces_whole.
Qed.

(** No piece can be split further, so splitting a piece gives the piece
    back; and every piece but the first begins with the begin marker. *)
Theorem chainToCerts_pieces (blob : string) :
  Forall (λ piece, has_boundary piece = false ∧ chainToCerts piece = [piece])
         (chainToCerts blob)
  ∧ Forall (λ piece, startsWith piece BEGIN_CERTIFICATE = true)
           (tail (chainToCerts blob)).
Proof.
  rewrite (chainToCerts_pair blob). destruct (pieces_closed blob) as [Hpiece Hpieces].
  cbn [tail]. split.
  - constructor.
    + split; [done|]. by rewrite chainToCerts_pair, split_pieces_whole.
    + eapply Forall_impl; [exact Hpieces|]. intros p [Hp _]. split; [done|].
      by rewrite chainToCerts_pair, split_pieces_whole.
  - eapply Forall_impl; [exact Hpieces|]. by intros p [_ Hp].
Qed.

End SplitterFacts.

(** * Further properties of chain validation *)

Module ValidatorFacts.

Import Utils Notions UtilsFacts.

Lemma truthy_string_Some (uri : option string) :
  truthy_string uri = true ↔ ∃ u, uri = Some u ∧ u ≠ "".
Proof.
  destruct uri as [u|]; simpl.
  - rewrite negb_true_iff. split.
    + intros H. exists u. split; [done|]. intros ->. by rewrite String.eqb_refl in H.
    + intros (? & [= <-] & Hne). by apply String.eqb_neq.
  - split; [done|]. by intros (? & ? & _).
Qed.

Lemma array_from_set_aux_seen (seen l : list string) :
  (∀ x, x ∈ l → x ∈ seen) → array_from_set_aux seen l = [].
Proof.
  induction l as [|x l IH]; intros H; [done|]. simpl.
  rewrite bool_decide_eq_true_2 by (apply H; set_solver).
  apply IH. intros ??. apply H. set_solver.
Qed.

Lemma array_from_set_aux_absorb (seen l l' : list string) :
  (∀ x, x ∈ l' → x ∈ seen ∨ x ∈ l) →
  array_from_set_aux seen (l ++ l') = array_from_set_aux seen l.
Proof.
  revert seen. induction l as [|y l IH]; intros seen H; simpl.
  - apply array_from_set_aux_seen. intros x Hx. destruct (H x Hx); set_solver.
  - case_bool_decide as Hy.
    + apply IH. intros x Hx. destruct (H x Hx) as [|Hin]; [by left|].
      apply elem_of_cons in Hin as [->|]; [by left | by right].
    + f_equal. apply IH. intros x Hx. destruct (H x Hx) as [|Hin]; [set_solver|].
      apply elem_of_cons in Hin as [->|]; [set_solver | by right].
Qed.

Section Validator.

Context (P : Pki) (O : Ocsp).

Lemma verifyChain_Return_responder (chain : list string) (domain : string)
    (caStore : CAStore) (outcome : verified_chain) :
  verifyChain P O chain domain caStore = Return outcome →
  ∃ err uri, getOCSPURI O (chain !! 0) = Called err (Some uri) ∧ uri ≠ "".
Proof.
  unfold verifyChain. intros H.
  destruct (traverse _ chain) as [certs|]; cbn [bind] in H; [|done].
  destruct (verifyCertificateChain P caStore certs) as [path|]; cbn [bind] in H; [|done].
  destruct (if path then _ else _) as [subject_ok|]; cbn [bind] in H; [|done].
  destruct (checkForOCSP O (chain !! 0)) as [ocsp|] eqn:Hocsp; cbn [bind] in H; [|done].
  apply checkForOCSP_Return in Hocsp as (_ & err & uri & Huri & Htruthy).
  apply truthy_string_Some in Htruthy as (u & -> & Hne). by exists err, u.
Qed.

Lemma verifyChain_Return_nonempty (chain : list string) (domain : string)
    (caStore : CAStore) (outcome : verified_chain) :
  chain ≠ [] →
  verifyChain P O chain domain caStore = Return outcome →
  Utils.chain outcome ≠ [].
Proof. intros Hne H. by rewrite (verifyChain_chain P O _ _ _ _ H). Qed.

(** A chain is marked valid only after every check of [verifyChain] has
    passed: all its certificates parse, the path validation and the
    subject check return [true], the leaf names a responder, and the
    responder answers "good" for the leaf and the second certificate of
    the chain. *)
Theorem verifyChain_valid_checks (chain : list string) (domain : string)
    (caStore : CAStore) (outcome : verified_chain) :
  verifyChain P O chain domain caStore = Return outcome →
  valid outcome = true →
  (∃ certs, traverse (λ pem, certificateFromPem P (Some pem)) chain = Return certs
            ∧ verifyCertificateChain P caStore certs = Return true)
  ∧ verifyCertSubject P (chain !! 0) domain = Return true
  ∧ (∃ err uri, getOCSPURI O (chain !! 0) = Called err (Some uri) ∧ uri ≠ "")
  ∧ (∃ err res, check O (chain !! 0) (chain !! 1) = Called err (Some res)
                ∧ res_type res = "good").
Proof.
  intros H Hvalid.
  destruct (verifyChain_valid P O _ _ _ _ H Hvalid) as (Hpath & Hsubject & _ & Hgood).
  split; [done|]. split; [done|]. split; [|done].
  by eapply verifyChain_Return_responder.
Qed.

(** The answer of the responder, for a chain that has passed the path
    validation and the subject check and whose leaf names a responder.
    An answer of any type gives an outcome, valid exactly for the type
    "good", whatever error comes with it: a revoked certificate is an
    invalid chain and no exception.  No answer makes [verifyChain] throw
    the error of the query, or [undefined] when there is none. *)
Theorem verifyChain_responder_answer (chain : list string) (domain : string)
    (caStore : CAStore) (certs : list certificate) (uri_err : option thrown)
    (uri : string) :
  traverse (λ pem, certificateFromPem P (Some pem)) chain = Return certs →
  verifyCertificateChain P caStore certs = Return true →
  verifyCertSubject P (chain !! 0) domain = Return true →
  getOCSPURI O (chain !! 0) = Called uri_err (Some uri) →
  uri ≠ "" →
  (∀ err res,
     check O (chain !! 0) (chain !! 1) = Called err (Some res) →
     verifyChain P O chain domain caStore
     = Return (VerifiedChain chain (String.eqb (res_type res) "good")))
  ∧ (∀ err,
       check O (chain !! 0) (chain !! 1) = Called err None →
       verifyChain P O chain domain caStore = Throw (default ThrownUndefined err))
  ∧ (∀ e,
       check O (chain !! 0) (chain !! 1) = Raised e →
       verifyChain P O chain domain caStore = Throw e).
Proof.
  intros Hcerts Hpath Hsubject Huri Hne.
  assert (checkForOCSP O (chain !! 0) = Return true) as Hocsp.
  { unfold checkForOCSP. rewrite Huri.
    by rewrite (proj2 (truthy_string_Some (Some uri))) by eauto. }
  unfold verifyChain. rewrite Hcerts. cbn [bind]. rewrite Hpath. cbn [bind].
  rewrite Hsubject. cbn [bind]. rewrite Hocsp. cbn [bind]. unfold checkOCSP.
  split; [|split].
  - by intros err res ->.
  - by intros err ->.
  - by intros e ->.
Qed.

(** A chain that has failed the path validation or the subject check is
    returned as invalid without a status query: the outcome is the same
    whatever the responder would answer. *)
Theorem verifyChain_invalid_without_query (O' : Ocsp) (chain : list string)
    (domain : string) (caStore : CAStore) (certs : list certificate) (path : bool) :
  getOCSPURI O' (chain !! 0) = getOCSPURI O (chain !! 0) →
  traverse (λ pem, certificateFromPem P (Some pem)) chain = Return certs →
  verifyCertificateChain P caStore certs = Return path →
  (if path then verifyCertSubject P (chain !! 0) domain else Return false)
  = Return false →
  verifyChain P O' chain domain caStore = verifyChain P O chain domain caStore.
Proof.
  intros Huri Hcerts Hpath Hfalse. unfold verifyChain.
  rewrite Hcerts. cbn [bind]. rewrite Hpath. cbn [bind].
  rewrite Hfalse. cbn [bind].
  assert (checkForOCSP O' (chain !! 0) = checkForOCSP O (chain !! 0)) as ->.
  { unfold checkForOCSP. by rewrite Huri. }
  by destruct (checkForOCSP O (chain !! 0)) as [[]|].
Qed.

(** When [processChains] returns, every chain it was given has a leaf
    that names a responder: for a leaf without one [checkForOCSP] rejects
    and nothing is returned.  There are at most as many outcomes as
    chains, and no outcome has an empty chain. *)
Theorem processChains_returns_with_responders (rootCertificates chains : list string)
    (domain : string) (outcomes : list verified_chain) :
  processChains P O rootCertificates chains domain = Return outcomes →
  Forall (λ outcome,
            chain outcome ≠ []
            ∧ ∃ err uri, getOCSPURI O (chain outcome !! 0) = Called err (Some uri)
                         ∧ uri ≠ "")
         outcomes
  ∧ length outcomes = length (array_from_set chains)
  ∧ (length outcomes ≤ length chains)%nat.
Proof.
  unfold processChains. intros H%traverse_Return.
  split; [|split].
  - eapply Forall2_Forall_r; [exact H|]. apply Forall_forall.
    intros blob _ outcome Hverify.
    pose proof (verifyChain_chain P O _ _ _ _ Hverify) as Hchain.
    rewrite Hchain. split.
    + rewrite SplitterFacts.chainToCerts_pair. done.
    + by eapply verifyChain_Return_responder.
  - symmetry. by eapply Forall2_length.
  - rewrite <- (Forall2_length _ _ _ H).
    apply sublist_length, array_from_set_aux_sublist.
Qed.

(** Chains that are listed again do not count: chains appended after the
    list that are already in it leave the result of [processChains] as it
    is, the chain that throws first included. *)
Theorem processChains_duplicates (rootCertificates chains again : list string)
    (domain : string) :
  (∀ chain, chain ∈ again → chain ∈ chains) →
  processChains P O rootCertificates (chains ++ again) domain
  = processChains P O rootCertificates chains domain.
Proof.
  intros H. unfold processChains, array_from_set.
  rewrite array_from_set_aux_absorb; [done|]. intros x Hx. right. by apply H.
Qed.

End Validator.

End ValidatorFacts.

(** * Further properties of the resolver *)

Module SelectorFacts.

Import Utils Resolver Notions UtilsFacts ResolverFacts.

Section Selector.

Context (L : Ledger) (C : Crypto) (P : Pki) (O : Ocsp).
Context (now : Z) (rootCertificates : list string).

#[local] Abbreviation verifyContract := (Resolver.verifyContract L C now) (only parsing).
#[local] Abbreviation selectContract := (Resolver.selectContract L C now) (only parsing).
#[local] Abbreviation resolveContract :=
  (Resolver.resolveContract L C P O now rootCertificates) (only parsing).
#[local] Abbreviation resolveTlsDid :=
  (Resolver.resolveTlsDid L C P O now rootCertificates) (only parsing).
#[local] Abbreviation matching did cert addresses :=
  (List.filter (λ address, bool_decide (verifyContract address did cert = Return true))
               addresses) (only parsing).

(** ** Reading the chains *)

Lemma traverse_seq {B : Type} (f : nat → completion B) (n : nat) (ys : list B) :
  traverse f (seq 0 n) = Return ys ↔
  length ys = n ∧ ∀ i y, ys !! i = Some y → f i = Return y.
Proof.
  rewrite traverse_Return, Forall2_same_length_lookup, length_seq. split.
  - intros [Hlen H]. split; [done|]. intros i y Hy.
    apply (H i i y); [|done]. apply lookup_seq.
    apply lookup_lt_Some in Hy. split; [done | lia].
  - intros [Hlen H]. split; [done|]. intros i x y [-> _]%lookup_seq Hy.
    by apply H.
Qed.

(** [getChains] returns the chains of the domain in the order of their
    indices, from 0 up to the chain count, and returns only when the
    count and every one of these reads return. *)
Theorem getChains_in_index_order (domain : string) (chains : list string) :
  getChains L domain = Return chains ↔
  certRegistry_getChainCount L domain = Return (length chains)
  ∧ ∀ i blob, chains !! i = Some blob → certRegistry_getChain L domain i = Return blob.
Proof.
  unfold getChains. split.
  - destruct (certRegistry_getChainCount L domain) as [n|]; cbn [bind]; [|done].
    intros [<- H]%traverse_seq. done.
  - intros [-> H]. cbn [bind]. by apply traverse_seq.
Qed.

(** ** One candidate *)



(** ** The selection loop *)

Lemma selectContract_Permutation (found : nat) (did : string) (cert : option string)
    (addresses addresses' : list string) (validContract : option string) :
  addresses ≡ₚ addresses' →
  selectContract found did cert addresses validContract
  = selectContract found did cert addresses' validContract.
Proof.
  intros Hperm. revert validContract.
  induction Hperm as [|x l l' _ IH|x y l|l l' l'' _ IH _ IH']; intros validContract.
  - done.
  - rewrite !selectContract_cons, !IH. done.
  - rewrite !selectContract_cons.
    by destruct (bool_decide _), (bool_decide _), validContract.
  - by rewrite IH, IH'.
Qed.


(** An address that is listed twice is two candidates: when its contract
    verifies, the selection fails as ambiguous. *)
Theorem selectContract_listed_twice (found : nat) (did : string) (cert : option string)
    (address : string) (before between after : list string)
    (validContract : option string) :
  verifyContract address did cert = Return true →
  selectContract found did cert
    (before ++ address :: between ++ address :: after) validContract
  = Throw (AmbiguousCandidate found).
Proof.
  intros Hvalid.
  rewrite (selectContract_Permutation _ _ _ _
             (address :: address :: before ++ between ++ after)).
  - rewrite !selectContract_cons, !(bool_decide_eq_true_2 (_ = _)) by done.
    by destruct validContract.
  - rewrite <- Permutation_middle. apply Permutation_skip.
    rewrite (app_assoc before between). rewrite <- Permutation_middle.
    by rewrite <- app_assoc.
Qed.

(** ** The resolution as a whole *)

Lemma resolveContract_inv (did registryAddress contract : string) (jwk : value) :
  resolveContract did registryAddress = Return (contract, jwk) →
  ∃ addresses chains outcomes validChain,
    registry_getContracts L registryAddress (substring_from 8 did) = Return addresses
    ∧ getChains L (substring_from 8 did) = Return chains
    ∧ processChains P O rootCertificates chains (substring_from 8 did) = Return outcomes
    ∧ List.filter valid outcomes = [validChain]
    ∧ matching did (chain validChain !! 0) addresses = [contract]
    ∧ x509ToJwk C (chain validChain !! 0) = Return jwk.
Proof.
  unfold Resolver.resolveContract. intros H.
  destruct (registry_getContracts L _ _) as [addresses|] eqn:Haddresses;
    cbn [bind] in H; [|done].
  destruct (length addresses =? 0)%nat; [done|].
  destruct (getChains L _) as [chains|] eqn:Hchains; cbn [bind] in H; [|done].
  destruct (length chains =? 0)%nat; [done|].
  destruct (processChains _ _ _ _ _) as [outcomes|] eqn:Houtcomes;
    cbn [bind] in H; [|done].
  cbv zeta in H.
  destruct (List.filter valid outcomes) as [|validChain [|? ?]] eqn:Hvalid;
    cbn [length Nat.eqb Nat.ltb Nat.leb] in H; [done| |done].
  change ([validChain] !! 0 ≫= λ validChain0, chain validChain0 !! 0)
    with (chain validChain !! 0) in H.
  rewrite selectContract_matching in H.
  destruct (List.filter _ addresses) as [|address [|? ?]] eqn:Hmatching; [done| |done].
  cbn [bind] in H.
  destruct (x509ToJwk C _) as [jwk'|] eqn:Hjwk; cbn [bind] in H; [|done].
  injection H as <- <-. by exists addresses, chains, outcomes, validChain.
Qed.

(** A resolution that returns is sound: the contract it returns is one of
    the addresses the registry lists for the domain, its verification
    against the leaf of the one valid chain returns [true], no other
    listed address verifies, and the key descriptor is that of this
    leaf. *)
Theorem resolveContract_sound (did registryAddress contract : string) (jwk : value) :
  resolveContract did registryAddress = Return (contract, jwk) →
  ∃ addresses chains outcomes validChain,
    registry_getContracts L registryAddress (substring_from 8 did) = Return addresses
    ∧ getChains L (substring_from 8 did) = Return chains
    ∧ processChains P O rootCertificates chains (substring_from 8 did) = Return outcomes
    ∧ List.filter valid outcomes = [validChain]
    ∧ contract ∈ addresses
    ∧ verifyContract contract did (chain validChain !! 0) = Return true
    ∧ (∀ address, address ∈ addresses →
         verifyContract address did (chain validChain !! 0) = Return true →
         address = contract)
    ∧ x509ToJwk C (chain validChain !! 0) = Return jwk.
Proof.
  intros (addresses & chains & outcomes & validChain & Haddresses & Hchains
          & Houtcomes & Hvalid & Hmatching & Hjwk)%resolveContract_inv.
  exists addresses, chains, outcomes, validChain.
  assert (∀ address, address ∈ addresses
                     ∧ verifyContract address did (chain validChain !! 0) = Return true
                     ↔ address = contract) as Hiff.
  { intros address. split.
    - intros [Hin Hverify]. apply list_elem_of_singleton. rewrite <- Hmatching.
      apply list_elem_of_In, List.filter_In. split; [by apply list_elem_of_In|].
      by apply bool_decide_eq_true.
    - intros ->. assert (contract ∈ [contract]) as Hin by (by apply list_elem_of_singleton).
      rewrite <- Hmatching in Hin.
      apply list_elem_of_In, List.filter_In in Hin as [Hin Hverify].
      split; [by apply list_elem_of_In | by apply bool_decide_eq_true in Hverify]. }
  destruct (proj2 (Hiff contract) eq_refl) as [Hin Hverify].
  repeat split; try done. intros address ??. by apply Hiff.
Qed.

(** With no contract listed for the domain the resolution fails as not
    found before the certificate registry is read; with contracts but no
    chain it fails as not found before a root or a chain is parsed; an
    error of the certificate registry is thrown on only when there are
    contracts. *)
Theorem resolveContract_not_found (did registryAddress : string) :
  (registry_getContracts L registryAddress (substring_from 8 did) = Return [] →
   resolveContract did registryAddress = Throw NotFound_contract)
  ∧ (∀ addresses,
       registry_getContracts L registryAddress (substring_from 8 did) = Return addresses →
       addresses ≠ [] →
       (certRegistry_getChainCount L (substring_from 8 did) = Return 0 →
        resolveContract did registryAddress = Throw NotFound_chains)
       ∧ (∀ e, certRegistry_getChainCount L (substring_from 8 did) = Throw e →
               resolveContract did registryAddress = Throw e)).
Proof.
  unfold Resolver.resolveContract, getChains. split.
  - by intros ->.
  - intros [|address addresses] -> Hne; [done|]. cbn [bind length Nat.eqb].
    split; [by intros -> | by intros e ->].
Qed.

(** What a failed resolution throws: one of its own six errors, or what
    the registry, the reading of the chains, the verification of the
    chains or the key conversion threw.  An error thrown while a
    candidate is verified never leaves the resolution. *)
Theorem resolveContract_throws (did registryAddress : string) (e : thrown) :
  resolveContract did registryAddress = Throw e →
  e = NotFound_contract ∨ e = NotFound_chains
  ∨ e = NoValidChain ∨ e = AmbiguousChain
  ∨ (∃ found, e = NoValidCandidate found) ∨ (∃ found, e = AmbiguousCandidate found)
  ∨ registry_getContracts L registryAddress (substring_from 8 did) = Throw e
  ∨ getChains L (substring_from 8 did) = Throw e
  ∨ (∃ chains,
       processChains P O rootCertificates chains (substring_from 8 did) = Throw e)
  ∨ (∃ cert, x509ToJwk C cert = Throw e).
Proof.
  unfold Resolver.resolveContract. intros H.
  destruct (registry_getContracts L _ _) as [addresses|]; cbn [bind] in H;
    [|naive_solver].
  destruct (length addresses =? 0)%nat; [naive_solver|].
  destruct (getChains L _) as [chains|]; cbn [bind] in H; [|naive_solver].
  destruct (length chains =? 0)%nat; [naive_solver|].
  destruct (processChains _ _ _ _ _) as [outcomes|] eqn:Houtcomes;
    cbn [bind] in H; [|naive_solver].
  cbv zeta in H.
  destruct (length (List.filter valid outcomes) =? 0)%nat; [naive_solver|].
  destruct (1 <? length (List.filter valid outcomes))%nat; [naive_solver|].
  destruct (Resolver.selectContract _ _ _ _ _ _ _ _) as [[contract|]|e']
    eqn:Hselect; cbn [bind] in H.
  - destruct (x509ToJwk C _) eqn:Hjwk; cbn [bind] in H; [done|].
    simplify_eq. do 9 right. by eexists.
  - naive_solver.
  - apply selectContract_Throw in Hselect. naive_solver.
Qed.

(** ** The document *)

Lemma resolveTlsDid_unfold (did registryAddress : string) :
  resolveTlsDid did registryAddress
  = let! resolved := resolveContract did registryAddress in
    let! attributeCount := contract_getAttributeCount L resolved.1 in
    addAttributes L resolved.1 (seq 0 attributeCount) (baseDocument did resolved.2).
Proof.
  unfold Resolver.resolveTlsDid.
  by destruct (Resolver.resolveContract _ _ _ _ _ _ _ _) as [[contract jwk]|].
Qed.

Lemma addAttributes_app (contract : string) (idxs idxs' : list nat)
    (didDocument : gmap string value) :
  addAttributes L contract (idxs ++ idxs') didDocument
  = let! document := addAttributes L contract idxs didDocument in
    addAttributes L contract idxs' document.
Proof.
  revert didDocument. induction idxs as [|i idxs IH]; intros didDocument; [done|].
  change ((i :: idxs) ++ idxs') with (i :: (idxs ++ idxs')). cbn [addAttributes].
  destruct (contract_getAttribute L contract i) as [attribute|]; cbn [bind]; [|done].
  destruct (addValueAtPath _ _ _); cbn [bind]; [apply IH | done].
Qed.

Lemma addAttributes_frame (contract : string) (idxs : list nat)
    (didDocument result : gmap string value) (key : string) :
  addAttributes L contract idxs didDocument = Return result →
  key ≠ "__proto__" →
  (∀ i path value,
     i ∈ idxs → contract_getAttribute L contract i = Return (path, value) →
     root_key path ≠ key) →
  result !! key = didDocument !! key.
Proof.
  intros H Hproto. revert didDocument H.
  induction idxs as [|i idxs IH]; intros didDocument H Hkeys.
  - by simplify_eq/=.
  - cbn [addAttributes] in H.
    destruct (contract_getAttribute L contract i) as [[path value]|] eqn:Hi;
      cbn [bind] in H; [|done].
    destruct (addValueAtPath _ _ _) as [document|] eqn:Hadd; cbn [bind] in H; [|done].
    rewrite (IH _ H).
    + apply (DocumentFacts.addValueAtPath_Return_others _ _ _ _ Hadd); [|done].
      intros ->. apply (Hkeys i path value); [|done..].
      apply elem_of_cons. by left.
    + intros i' path' value' Hin Hread. apply (Hkeys i' path' value'); [|done].
      apply elem_of_cons. by right.
Qed.

(** The prototype of the document stays [Object.prototype] when no
    attribute path begins with [__proto__]. *)
Lemma addAttributes_prototype (contract : string) (idxs : list nat)
    (didDocument result : gmap string value) :
  addAttributes L contract idxs didDocument = Return result →
  didDocument !! "__proto__" = None →
  (∀ i path value,
     i ∈ idxs → contract_getAttribute L contract i = Return (path, value) →
     root_key path ≠ "__proto__") →
  result !! "__proto__" = None.
Proof.
  revert didDocument. induction idxs as [|i idxs IH]; intros didDocument H Hdefault Hkeys.
  - by simplify_eq/=.
  - cbn [addAttributes] in H.
    destruct (contract_getAttribute L contract i) as [[path value]|] eqn:Hi;
      cbn [bind] in H; [|done].
    destruct (addValueAtPath _ _ _) as [document|] eqn:Hadd; cbn [bind] in H; [|done].
    assert (root_key path ≠ "__proto__") as Hroot.
    { apply (Hkeys i path value); [|done]. apply elem_of_cons. by left. }
    apply (DocumentFacts.addValueAtPath_Return_root _ _ _ _) in Hadd as [w ->];
      [|done..].
    apply (IH _ H).
    + by rewrite lookup_insert_ne.
    + intros i' path' value' Hin Hread. apply (Hkeys i' path' value'); [|done].
      apply elem_of_cons. by right.
Qed.

Lemma baseDocument_lookup (did : string) (jwk : value) :
  baseDocument did jwk !! "@context" = Some (VString "https://www.w3.org/ns/did/v1")
  ∧ baseDocument did jwk !! "id" = Some (VString did).
Proof.
  unfold baseDocument. split.
  - by rewrite !lookup_insert_ne, lookup_singleton_eq by done.
  - by rewrite lookup_insert_ne, lookup_insert_eq by done.
Qed.

Lemma baseDocument_prototype (did : string) (jwk : value) :
  baseDocument did jwk !! "__proto__" = None.
Proof.
  unfold baseDocument. by rewrite !lookup_insert_ne, lookup_singleton_ne by done.
Qed.

(** The keys of the document no attribute writes under are as
    [resolveTlsDid] set them before the attributes: in particular the
    document's [id] is the DID when no attribute path begins with [id] or
    [id[]]. *)
Theorem resolveTlsDid_untouched_keys (did registryAddress contract : string)
    (jwk : value) (didDocument : gmap string value) :
  resolveContract did registryAddress = Return (contract, jwk) →
  resolveTlsDid did registryAddress = Return didDocument →
  (∀ key,
     (∀ i path value,
        contract_getAttribute L contract i = Return (path, value) →
        root_key path ≠ key) →
     didDocument !! key = baseDocument did jwk !! key)
  ∧ ((∀ i path value,
        contract_getAttribute L contract i = Return (path, value) →
        root_key path ≠ "id") →
     didDocument !! "id" = Some (VString did)).
Proof.
  intros Hresolved H. rewrite resolveTlsDid_unfold, Hresolved in H. cbn [bind fst snd] in H.
  destruct (contract_getAttributeCount L contract) as [n|]; cbn [bind] in H; [|done].
  assert (∀ key,
            (∀ i path value,
               contract_getAttribute L contract i = Return (path, value) →
               root_key path ≠ key) →
            didDocument !! key = baseDocument did jwk !! key) as Hkeys.
  { intros key Hkey. destruct (decide (key = "__proto__")) as [->|Hproto].
    - rewrite baseDocument_prototype.
      eapply addAttributes_prototype; [exact H|apply baseDocument_prototype|].
      intros; by eapply Hkey.
    - eapply addAttributes_frame; [exact H|done|]. intros; by eapply Hkey. }
  split; [done|]. intros Hid. rewrite (Hkeys _ Hid). apply baseDocument_lookup.
Qed.

(** The last attribute of the contract, when its path is a plain key
    other than [__proto__], is what the document has under that key: an
    attribute of path [id] replaces the document's [id]. *)
Theorem resolveTlsDid_last_attribute (did registryAddress contract : string)
    (jwk : value) (didDocument : gmap string value) (n : nat) (key value : string) :
  resolveContract did registryAddress = Return (contract, jwk) →
  contract_getAttributeCount L contract = Return (S n) →
  contract_getAttribute L contract n = Return (key, value) →
  includes_char key "/" = false →
  endsWith key "[]" = false →
  key ≠ "__proto__" →
  resolveTlsDid did registryAddress = Return didDocument →
  didDocument !! key = Some (VString value).
Proof.
  intros Hresolved Hcount Hlast Hkey Hplain Hproto H.
  rewrite resolveTlsDid_unfold, Hresolved in H. cbn [bind fst snd] in H.
  rewrite Hcount in H. cbn [bind] in H.
  rewrite seq_S, addAttributes_app in H. cbn [Nat.add] in H.
  destruct (addAttributes L contract (seq 0 n) _) as [document|]; cbn [bind] in H; [|done].
  cbn [addAttributes] in H. rewrite Hlast in H. cbn [bind fst snd] in H.
  rewrite DocumentFacts.addValueAtPath_set in H by done. cbn [bind] in H.
  simplify_eq. apply lookup_insert_eq.
Qed.

(** An attribute can make the whole resolution throw: when the path of
    the first attribute appends, with [[]], under [@context] (or under
    [id], the DID not being empty), the key holds a string, the append
    throws a TypeError, and no document is returned. *)
Theorem resolveTlsDid_append_to_string (did registryAddress contract : string)
    (jwk : value) (n : nat) (path value : string) :
  resolveContract did registryAddress = Return (contract, jwk) →
  contract_getAttributeCount L contract = Return (S n) →
  contract_getAttribute L contract 0 = Return (path, value) →
  endsWith (first_segment path) "[]" = true →
  root_key path = "@context" ∨ (root_key path = "id" ∧ did ≠ "") →
  resolveTlsDid did registryAddress = Throw push_TypeError.
Proof.
  intros Hresolved Hcount Hfirst Happend Hroot.
  rewrite resolveTlsDid_unfold, Hresolved. cbn [bind fst snd].
  rewrite Hcount. cbn [bind seq addAttributes]. rewrite Hfirst. cbn [bind fst snd].
  rewrite DocumentFacts.addValueAtPath_shape, Happend.
  destruct (baseDocument_lookup did jwk) as [Hcontext Hid].
  destruct Hroot as [->|[-> Hdid]].
  - rewrite (get_own _ "@context" _ ltac:(done) Hcontext). reflexivity.
  - rewrite (get_own _ "id" _ ltac:(done) Hid). cbn [truthy].
    by rewrite (proj2 (String.eqb_neq did "")) by done.
Qed.

End Selector.

End SelectorFacts.

(** * The further properties in the test world *)

Module Cases.

Import Utils Resolver Scenario Notions.
Import DocumentFacts SplitterFacts ValidatorFacts SelectorFacts.

Lemma addValueAtPath_last_segment_witness :
  addValueAtPath withArray "id" "did:tls:tls-did.de"
  = Return (<["id" := VString "did:tls:tls-did.de"]> withArray)
  ∧ addValueAtPath withArray "parent[]" "A"
    = Return {["parent" := VArray [VObject {["childA" := VString "valueA"]}; VString "A"]]}
  ∧ addValueAtPath ∅ "array[]" "A" = Return {["array" := VArray [VString "A"]]}
  ∧ addValueAtPath ∅ "toString[]" "A" = Throw push_TypeError.
Proof.
  split; [|split; [|split]].
  - apply (proj1 (addValueAtPath_last_segment "id" "did:tls:tls-did.de"
                    eq_refl ltac:(discriminate))).
    reflexivity.
  - etransitivity;
      [apply (proj1 (proj2 (addValueAtPath_last_segment "parent" "A"
                              eq_refl ltac:(discriminate)))
                withArray [VObject {["childA" := VString "valueA"]}])|];
      vm_compute; reflexivity.
  - etransitivity;
      [apply (proj1 (proj2 (proj2 (addValueAtPath_last_segment "array" "A"
                                     eq_refl ltac:(discriminate)))) ∅)|
       vm_compute; reflexivity].
    right. split; [|split]; [vm_compute; reflexivity..|].
    apply (bool_decide_eq_false_1 _); vm_compute; reflexivity.
  - apply (proj2 (proj2 (proj2 (addValueAtPath_last_segment "toString" "A"
                                  eq_refl ltac:(discriminate)))) ∅);
      [vm_compute; reflexivity..|].
    apply (bool_decide_eq_true_1 _); vm_compute; reflexivity.
Defined.

Lemma addValueAtPath_throws_iff_witness :
  addValueAtPath withArray "parent[]/childA[]" "x" ≠ Throw push_TypeError
  ∧ addValueAtPath (baseDocument did jwk) "id[]/x" "x" = Throw push_TypeError
  ∧ addValueAtPath withArray "a/constructor[]" "x" = Throw push_TypeError.
Proof.
  split; [|split].
  - intros H.
    apply (addValueAtPath_throws_iff withArray "parent[]/childA[]" "x" push_TypeError
             eq_refl) in H as (_ & [(_ & [(s & H & _)|[(props & H)|(H & _)]])
                                   |(segment & Hin & _ & H)]).
    + vm_compute in H. discriminate.
    + vm_compute in H. discriminate.
    + vm_compute in H. discriminate.
    + vm_compute in Hin. apply list_elem_of_singleton in Hin as ->.
      apply (bool_decide_eq_true_2 _) in H. vm_compute in H. discriminate.
  - apply (addValueAtPath_throws_iff (baseDocument did jwk) "id[]/x" "x" push_TypeError);
      [vm_compute; reflexivity|].
    split; [reflexivity|]. left. split; [vm_compute; reflexivity|].
    left. exists did. split; [vm_compute; reflexivity|discriminate].
  - apply (addValueAtPath_throws_iff withArray "a/constructor[]" "x" push_TypeError);
      [vm_compute; reflexivity|].
    split; [reflexivity|]. right. exists "constructor[]".
    split; [vm_compute; apply list_elem_of_singleton; reflexivity|].
    split; [vm_compute; reflexivity|].
    apply (bool_decide_eq_true_1 _); vm_compute; reflexivity.
Defined.

Lemma addValueAtPath_frame_witness :
  ∃ result,
    addValueAtPath withArray "service[]/type" "x" = Return result
    ∧ result !! "parent" = withArray !! "parent"
    ∧ result !! "__proto__" = None.
Proof.
  eexists. split; [vm_compute; reflexivity|].
  destruct (addValueAtPath_frame withArray _ "service[]/type" "x"
              ltac:(vm_compute; reflexivity)) as [Hothers Hroot].
  split.
  - apply Hothers; vm_compute; discriminate.
  - apply Hroot; [vm_compute; reflexivity | vm_compute; discriminate].
Defined.

Lemma addValueAtPath_plain_root_overwrites_witness :
  ∃ c, ∀ object,
    addValueAtPath object "parent/childB" "valueB"
    = let! w := c in Return (<[root_key "parent/childB" := w]> object).
Proof.
  destruct (addValueAtPath_plain_root_overwrites "parent/childB" "valueB")
    as (c & H & _); [vm_compute; reflexivity | vm_compute; discriminate |].
  by exists c.
Defined.

Lemma addValueAtPath_appends_accumulate_witness :
  (let! once := addValueAtPath withArray "parent[]" "A" in
   addValueAtPath once "parent[]" "B")
  = Return {["parent" := VArray [VObject {["childA" := VString "valueA"]};
                                 VString "A"; VString "B"]]}
  ∧ (let! once := addValueAtPath ∅ "array[]" "A" in
     addValueAtPath once "array[]" "B")
    = Return {["array" := VArray [VString "A"; VString "B"]]}.
Proof.
  split.
  - etransitivity;
      [apply (proj1 (addValueAtPath_appends_accumulate "parent" "A" "B"
                       eq_refl ltac:(discriminate))
                withArray [VObject {["childA" := VString "valueA"]}])|];
      vm_compute; reflexivity.
  - etransitivity;
      [apply (proj2 (addValueAtPath_appends_accumulate "array" "A" "B"
                       eq_refl ltac:(discriminate)) ∅)|
       vm_compute; reflexivity].
    right. split; [|split]; [vm_compute; reflexivity..|].
    apply (bool_decide_eq_false_1 _); vm_compute; reflexivity.
Defined.

Lemma chainToCerts_length_witness :
  chainToCerts "" = [""] ∧ length (chainToCerts chainGood) = 2.
Proof.
  split.
  - apply (chainToCerts_length ""). reflexivity.
  - etransitivity; [apply (chainToCerts_length chainGood)|]. vm_compute. reflexivity.
Defined.

Lemma verifyChain_valid_checks_witness :
  verifyCertSubject pki (Some cert) "tls-did.de" = Return true.
Proof.
  apply (verifyChain_valid_checks pki ocsp [cert; intermediateCert] "tls-did.de"
           caStore (VerifiedChain [cert; intermediateCert] true));
    vm_compute; reflexivity.
Defined.

Lemma verifyChain_responder_answer_witness :
  verifyChain pki ocsp [certRevoked; intermediateCert] "tls-did.de" caStore
  = Return (VerifiedChain [certRevoked; intermediateCert] false)
  ∧ verifyChain pki ocsp_down [cert; intermediateCert] "tls-did.de" caStore
    = Throw (Error "connect ECONNREFUSED").
Proof.
  split.
  - destruct (verifyChain_responder_answer pki ocsp [certRevoked; intermediateCert]
                "tls-did.de" caStore
                [commonName "tls-did.de" certRevoked; commonName "Test CA" intermediateCert]
                None "http://ocsp.test-ca.example"
                ltac:(vm_compute; reflexivity) ltac:(vm_compute; reflexivity)
                ltac:(vm_compute; reflexivity) ltac:(vm_compute; reflexivity)
                ltac:(discriminate)) as (Hanswer & _).
    apply (Hanswer (Some (Error "OCSP Status: revoked")) {| res_type := "revoked" |}).
    vm_compute. reflexivity.
  - destruct (verifyChain_responder_answer pki ocsp_down [cert; intermediateCert]
                "tls-did.de" caStore
                [commonName "tls-did.de" cert; commonName "Test CA" intermediateCert]
                None "http://ocsp.test-ca.example"
                ltac:(vm_compute; reflexivity) ltac:(vm_compute; reflexivity)
                ltac:(vm_compute; reflexivity) ltac:(vm_compute; reflexivity)
                ltac:(discriminate)) as (_ & _ & Hraised).
    apply Hraised. vm_compute. reflexivity.
Defined.

Lemma verifyChain_invalid_without_query_witness :
  verifyChain pki ocsp_down [certOther; intermediateCert] "tls-did.de" caStore
  = verifyChain pki ocsp [certOther; intermediateCert] "tls-did.de" caStore.
Proof.
  apply (verifyChain_invalid_without_query pki ocsp ocsp_down
           [certOther; intermediateCert] "tls-did.de" caStore
           [commonName "example.org" certOther; commonName "Test CA" intermediateCert]
           true);
    vm_compute; reflexivity.
Defined.

Lemma processChains_returns_with_responders_witness :
  length [VerifiedChain [cert; intermediateCert] true;
          VerifiedChain [certOther; intermediateCert] false]
  = length (array_from_set [chainGood; chainOther; chainGood]).
Proof.
  apply (processChains_returns_with_responders pki ocsp rootCertificates
           [chainGood; chainOther; chainGood] "tls-did.de").
  vm_compute. reflexivity.
Defined.

Lemma processChains_duplicates_witness :
  processChains pki ocsp rootCertificates
    ([chainGood; chainOther] ++ [chainOther; chainGood]) "tls-did.de"
  = processChains pki ocsp rootCertificates [chainGood; chainOther] "tls-did.de".
Proof.
  apply processChains_duplicates.
  intros chain [->|[->|[]%elem_of_nil]%elem_of_cons]%elem_of_cons.
  - apply elem_of_cons. right. apply elem_of_cons. by left.
  - apply elem_of_cons. by left.
Defined.

Lemma getChains_in_index_order_witness :
  getChains (ledger "tls-did.de" ["0xA"] [chainGood; chainOther]) "tls-did.de"
  = Return [chainGood; chainOther].
Proof.
  apply getChains_in_index_order. split; [vm_compute; reflexivity|].
  intros [|[|i]] blob H; simplify_eq/=; vm_compute; reflexivity.
Defined.



Lemma selectContract_listed_twice_witness :
  selectContract (ledger "tls-did.de" [] []) crypto now 3 did (Some cert)
    ["0xA"; "0xC"; "0xA"] None
  = Throw (AmbiguousCandidate 3).
Proof.
  apply (selectContract_listed_twice (ledger "tls-did.de" [] []) crypto now 3 did
           (Some cert) "0xA" [] ["0xC"] [] None).
  vm_compute. reflexivity.
Defined.

Lemma resolveContract_sound_witness :
  ∃ addresses,
    registry_getContracts (ledger "tls-did.de" ["0xC"; "0xA"] [chainGood]) REGISTRY
      (substring_from 8 did) = Return addresses
    ∧ "0xA" ∈ addresses.
Proof.
  destruct (resolveContract_sound (ledger "tls-did.de" ["0xC"; "0xA"] [chainGood])
              crypto pki ocsp now rootCertificates did REGISTRY "0xA" jwk)
    as (addresses & _ & _ & _ & H & _ & _ & _ & Hin & _);
    [vm_compute; reflexivity|].
  by exists addresses.
Defined.

Lemma resolveContract_not_found_witness :
  resolveContract (ledger "tls-did.de" [] [chainGood])
    crypto pki ocsp now rootCertificates did REGISTRY
  = Throw NotFound_contract
  ∧ resolveContract (ledger "tls-did.de" ["0xA"] [])
      crypto pki ocsp now rootCertificates did REGISTRY
    = Throw NotFound_chains.
Proof.
  split.
  - apply (proj1 (resolveContract_not_found (ledger "tls-did.de" [] [chainGood])
                    crypto pki ocsp now rootCertificates did REGISTRY)).
    vm_compute. reflexivity.
  - apply (proj1 (proj2 (resolveContract_not_found (ledger "tls-did.de" ["0xA"] [])
                           crypto pki ocsp now rootCertificates did REGISTRY)
                    ["0xA"] ltac:(vm_compute; reflexivity) ltac:(discriminate))).
    vm_compute. reflexivity.
Defined.

Lemma resolveContract_throws_witness :
  NoValidCandidate 2 = NotFound_contract ∨ NoValidCandidate 2 = NotFound_chains
  ∨ NoValidCandidate 2 = NoValidChain ∨ NoValidCandidate 2 = AmbiguousChain
  ∨ (∃ found, NoValidCandidate 2 = NoValidCandidate found)
  ∨ (∃ found, NoValidCandidate 2 = AmbiguousCandidate found)
  ∨ registry_getContracts (ledger "tls-did.de" ["0xC"; "0xD"] [chainGood]) REGISTRY
      (substring_from 8 did) = Throw (NoValidCandidate 2)
  ∨ getChains (ledger "tls-did.de" ["0xC"; "0xD"] [chainGood]) (substring_from 8 did)
    = Throw (NoValidCandidate 2)
  ∨ (∃ chains,
       processChains pki ocsp rootCertificates chains (substring_from 8 did)
       = Throw (NoValidCandidate 2))
  ∨ (∃ cert, x509ToJwk crypto cert = Throw (NoValidCandidate 2)).
Proof.
  apply (resolveContract_throws (ledger "tls-did.de" ["0xC"; "0xD"] [chainGood])
           crypto pki ocsp now rootCertificates did REGISTRY).
  vm_compute. reflexivity.
Defined.

Lemma resolveTlsDid_untouched_keys_witness :
  ∃ didDocument,
    resolveTlsDid (ledger "tls-did.de" ["0xA"] [chainGood])
      crypto pki ocsp now rootCertificates did REGISTRY
    = Return didDocument
    ∧ didDocument !! "id" = Some (VString did).
Proof.
  eexists. split; [vm_compute; reflexivity|].
  eapply (resolveTlsDid_untouched_keys (ledger "tls-did.de" ["0xA"] [chainGood])
            crypto pki ocsp now rootCertificates did REGISTRY "0xA" jwk);
    [vm_compute; reflexivity | vm_compute; reflexivity |].
  intros [|i] path value Hread; simplify_eq/=. vm_compute. discriminate.
Defined.

Lemma resolveTlsDid_last_attribute_witness :
  ∃ didDocument,
    resolveTlsDid
      (ledger_with [("service[]/type", "x"); ("id", "did:tls:other.example")]
         "tls-did.de" ["0xA"] [chainGood])
      crypto pki ocsp now rootCertificates did REGISTRY
    = Return didDocument
    ∧ didDocument !! "id" = Some (VString "did:tls:other.example").
Proof.
  eexists. split; [vm_compute; reflexivity|].
  eapply (resolveTlsDid_last_attribute
            (ledger_with [("service[]/type", "x"); ("id", "did:tls:other.example")]
               "tls-did.de" ["0xA"] [chainGood])
            crypto pki ocsp now rootCertificates did REGISTRY "0xA" jwk _ 1);
    try (vm_compute; reflexivity).
  discriminate.
Defined.

Lemma resolveTlsDid_append_to_string_witness :
  resolveTlsDid (ledger_with [("@context[]", "x")] "tls-did.de" ["0xA"] [chainGood])
    crypto pki ocsp now rootCertificates did REGISTRY
  = Throw push_TypeError.
Proof.
  apply (resolveTlsDid_append_to_string
           (ledger_with [("@context[]", "x")] "tls-did.de" ["0xA"] [chainGood])
           crypto pki ocsp now rootCertificates did REGISTRY "0xA" jwk 0 "@context[]" "x");
    try (vm_compute; reflexivity).
  left. vm_compute. reflexivity.
Defined.

End Cases.
